(** * A Sudoku solver by constraint propagation and backtracking

    Shallow embedding of [sudoku_grid.py]: the propagation engine
    ([eliminate], [assign]), the backtracking search ([solve_sudoku]), the
    cell-selection and value-ordering strategies, the grid builder
    ([parse_grid]) and the reader of the text of a grid ([read_grid]).

    Python objects are kept as the program has them.  A [Sudoku] object
    holds a reference to its [cells] dictionary, which [eliminate] updates
    in place; dictionaries live in a store, and every function is a
    computation over that store which returns a value, raises an exception
    or runs out of recursion budget.

    Python sets are finite sets ([gset]); a loop over a set goes through
    [elements], whose order, like the order of iteration of a Python set,
    is fixed but unspecified.  The proofs use only that [elements] lists
    the members of the set. *)

From stdpp Require Import base gmap sets list sorting strings.
From Stdlib Require Import ZArith Lia Ascii.

Local Open Scope Z_scope.

(** ** Python values *)

(** A cell coordinate is a tuple [(row, column)] of Python integers. *)
Definition cell : Type := Z * Z.

(** The exceptions the code can raise.  [InvalidSize] is the failure of
    the grid constructor named by the specification. *)
Inductive exn : Set :=
| KeyError | AttributeError | TypeError | ValueError | IndexError
| AssertionError | InvalidSize | InvalidRef.

(** Outcome of a call: a returned value, a raised exception, or the
    recursion budget exhausted. *)
Inductive res (A : Type) : Type :=
| Ret (a : A)
| Raise (e : exn)
| OutOfFuel.
Arguments Ret {A} a.
Arguments Raise {A} e.
Arguments OutOfFuel {A}.

(** ** Dictionaries

    A Python [dict] keeps its keys in insertion order, and the selection
    strategies iterate over it, so a dictionary is an association list.
    Assigning to an existing key keeps the key's position. *)
Section dict.
Context {K V : Type} `{EqDecision K}.

Definition dict : Type := list (K * V).

(** [d[k]], [None] standing for the [KeyError]. *)
Fixpoint dict_get (d : dict) (k : K) : option V :=
  match d with
  | [] => None
  | (k', v) :: d' => if decide (k' = k) then Some v else dict_get d' k
  end.

(** [d[k] = v]. *)
Fixpoint dict_set (d : dict) (k : K) (v : V) : dict :=
  match d with
  | [] => [(k, v)]
  | (k', v') :: d' =>
      if decide (k' = k) then (k, v) :: d' else (k', v') :: dict_set d' k v
  end.

(** Iterating over [d] yields its keys. *)
Definition dict_keys (d : dict) : list K := d.*1.

(** [d.values()]. *)
Definition dict_values (d : dict) : list V := d.*2.
End dict.
Arguments dict : clear implicits.

(** ** The store and the [Sudoku] object *)

(** The store holds the [cells] dictionaries; a reference is an index. *)
Abbreviation heap := (list (dict cell (gset Z))).

(** A [Sudoku] object: [cells] refers to a dictionary of the store (it is
    updated in place), [peers] is never written and is kept by value, [n]
    is the block size.  [False] is the contradiction marker. *)
Record Sudoku : Type := mkSudoku {
  cells : nat;
  peers : dict cell (gset cell);
  n : Z
}.

Inductive value : Type :=
| VFalse
| VGrid (g : Sudoku).

(** [grid == False] *)
Definition is_False (v : value) : bool :=
  match v with VFalse => true | VGrid _ => false end.

(** ** Computations over the store *)

Definition M (A : Type) : Type := heap → res A * heap.

Definition ret {A} (a : A) : M A := λ h, (Ret a, h).
Definition raise {A} (e : exn) : M A := λ h, (Raise e, h).
Definition out_of_fuel {A} : M A := λ h, (OutOfFuel, h).
Definition bind {A B} (m : M A) (k : A → M B) : M B :=
  λ h, match m h with
       | (Ret a, h') => k a h'
       | (Raise e, h') => (Raise e, h')
       | (OutOfFuel, h') => (OutOfFuel, h')
       end.

Declare Scope py_scope.
Delimit Scope py_scope with py.
Notation "'let!' x ':=' m 'in' k" := (bind m (λ x, k))
  (at level 10, x name, m at level 100, k at level 200,
   format "'[v' 'let!'  x  ':='  m  'in' '/' k ']'") : py_scope.
Local Open Scope py_scope.

(** [for x in xs: s = body(s, x)], returning the final [s]. *)
Fixpoint for_each {A S : Type} (xs : list A) (s : S) (body : S → A → M S)
  : M S :=
  match xs with
  | [] => ret s
  | x :: xs' => let! s' := body s x in for_each xs' s' body
  end.

(** Attribute access on a value: [False] has no attributes. *)
Definition as_obj (v : value) : M Sudoku :=
  match v with
  | VGrid g => ret g
  | VFalse => raise AttributeError
  end.

(** The dictionary a [Sudoku] object refers to. *)
Definition deref (g : Sudoku) : M (dict cell (gset Z)) :=
  λ h, match h !! cells g with
       | Some d => (Ret d, h)
       | None => (Raise InvalidRef, h)
       end.

(** [grid.cells[cell]] *)
Definition cells_get (grid : value) (c : cell) : M (gset Z) :=
  let! g := as_obj grid in
  let! d := deref g in
  match dict_get d c with
  | Some s => ret s
  | None => raise KeyError
  end.

(** [grid.cells[cell] = s]: the dictionary is updated in place. *)
Definition cells_set (grid : value) (c : cell) (s : gset Z) : M unit :=
  let! g := as_obj grid in
  let! d := deref g in
  λ h, (Ret (), <[cells g := dict_set d c s]> h).

(** [grid.peers[cell]] *)
Definition peers_get (grid : value) (c : cell) : M (gset cell) :=
  let! g := as_obj grid in
  match dict_get (peers g) c with
  | Some ps => ret ps
  | None => raise KeyError
  end.

(** [list(s)[0]] *)
Definition first_of (s : gset Z) : M Z :=
  match elements s with
  | x :: _ => ret x
  | [] => raise IndexError
  end.

(** Modelled from the spec: the [copy] method of the [Sudoku] class, which
    is defined in [sudoku_grid_util] and is not part of the sources.  Grids
    are copy-on-write values: the copy owns a new [cells] dictionary with
    the same entries and shares the read-only peer topology. *)
Definition copy (grid : value) : M value :=
  let! g := as_obj grid in
  let! d := deref g in
  λ h, (Ret (VGrid (mkSudoku (length h) (peers g) (n g))), h ++ [d]).

(** ** Propagation engine *)

(** [eliminate(grid, cell, digit)].  The first argument bounds the depth of
    the recursion. *)
Fixpoint eliminate (fuel : nat) (grid : value) (c : cell) (digit : Z)
  : M value :=
  match fuel with
  | O => out_of_fuel
  | S fuel' =>
      if is_False grid then ret VFalse
      else
        let! possible_digits := cells_get grid c in
        if decide (digit ∉ possible_digits) then ret grid
        else
          let new_digits := possible_digits ∖ {[digit]} in
          let! _ := cells_set grid c new_digits in
          if decide (size new_digits = 0%nat) then ret VFalse
          else if decide (size new_digits = 1%nat) then
            let! ps := peers_get grid c in
            for_each (elements ps) grid
              (λ grid peer,
                 let! d := first_of new_digits in
                 eliminate fuel' grid peer d)
          else ret grid
  end.

(** [assign(grid, cell, digit)].  The copy is taken before the test
    [grid == False]. *)
Definition assign (fuel : nat) (grid : value) (c : cell) (digit : Z)
  : M value :=
  let! grid := copy grid in
  let! cur_digits := cells_get grid c in
  let other_values := cur_digits ∖ {[digit]} in
  if is_False grid then ret VFalse
  else
    for_each (elements other_values) grid
      (λ grid d, eliminate fuel grid c d).

(** ** Backtracking search *)

(** [solved(grid)]: every candidate set has exactly one member. *)
Definition solved (grid : value) : M bool :=
  let! g := as_obj grid in
  let! d := deref g in
  ret (forallb (λ vals, bool_decide (size vals = 1%nat)) (dict_values d)).

(** The loop of [solve_sudoku]: [trial choice] is one pass through the body
    up to the test of [outcome]; the first outcome that is not [False] is
    returned, and [False] when the choices are exhausted. *)
Fixpoint try_choices (trial : Z → M value) (choices : list Z) : M value :=
  match choices with
  | [] => ret VFalse
  | choice :: rest =>
      let! outcome := trial choice in
      if negb (is_False outcome) then ret outcome
      else try_choices trial rest
  end.

Section search.
(** The two strategies handed to [solve_sudoku]. *)
Variable next_cell : value → M cell.
Variable order_choices : value → cell → M (list Z).

(** [solve_sudoku(grid, next_cell, order_choices)] *)
Fixpoint solve_sudoku (fuel : nat) (grid : value) : M value :=
  match fuel with
  | O => out_of_fuel
  | S fuel' =>
      if is_False grid then ret VFalse
      else
        let! done := solved grid in
        if (done : bool) then ret grid
        else
          let! next_idx := next_cell grid in
          let! choices := order_choices grid next_idx in
          try_choices
            (λ choice,
               let! new_grid := assign fuel' grid next_idx choice in
               solve_sudoku fuel' new_grid)
            choices
  end.
End search.

(** ** Strategies *)

(** [grid[0]]: the first field of the object; [False] is not
    subscriptable. *)
Definition field0 (grid : value) : M (dict cell (gset Z)) :=
  match grid with
  | VGrid g => deref g
  | VFalse => raise TypeError
  end.

(** [d[key]] for a key drawn from [d] itself. *)
Definition dict_at (d : dict cell (gset Z)) (key : cell) : gset Z :=
  default ∅ (dict_get d key).

(** [min(l)] and [max(l)]; both raise [ValueError] on an empty list. *)
Definition py_min (l : list nat) : M nat :=
  match l with
  | [] => raise ValueError
  | x :: l' => ret (foldl Nat.min x l')
  end.

Definition py_max (l : list nat) : M nat :=
  match l with
  | [] => raise ValueError
  | x :: l' => ret (foldl Nat.max x l')
  end.

(** [l.index(x)]: position of the first occurrence. *)
Fixpoint index_of (l : list nat) (x : nat) : option nat :=
  match l with
  | [] => None
  | y :: l' => if decide (y = x) then Some O else S <$> index_of l' x
  end.

Definition py_index (l : list nat) (x : nat) : M nat :=
  match index_of l x with
  | Some i => ret i
  | None => raise ValueError
  end.

(** [l[i]] *)
Definition py_nth {A} (l : list A) (i : nat) : M A :=
  match l !! i with
  | Some x => ret x
  | None => raise IndexError
  end.

(** [most_constrained(grid)] *)
Definition most_constrained (grid : value) : M cell :=
  let! d := field0 grid in
  let key_list :=
    filter (λ key, (1 < size (dict_at d key))%nat) (dict_keys d) in
  let count_list := map (λ k, size (dict_at d k)) key_list in
  let! m := py_min count_list in
  let! i := py_index count_list m in
  py_nth key_list i.

(** [least_constrained(grid)] *)
Definition least_constrained (grid : value) : M cell :=
  let! d := field0 grid in
  let key_list :=
    filter (λ key, (1 < size (dict_at d key))%nat) (dict_keys d) in
  let count_list := map (λ k, size (dict_at d k)) key_list in
  let! m := py_max count_list in
  let! i := py_index count_list m in
  py_nth key_list i.

(** [next_cell(grid)] *)
Definition next_cell (grid : value) : M cell := most_constrained grid.

(** [ascending_order(grid, cell)] *)
Definition ascending_order (grid : value) (c : cell) : M (list Z) :=
  let! d := field0 grid in
  match dict_get d c with
  | Some s => ret (merge_sort Z.le (elements s))
  | None => raise KeyError
  end.

(** [descending_order(grid, cell)] *)
Definition descending_order (grid : value) (c : cell) : M (list Z) :=
  let! d := field0 grid in
  match dict_get d c with
  | Some s => ret (merge_sort (flip Z.le) (elements s))
  | None => raise KeyError
  end.

(** ** Building a grid *)

(** Coordinates of a grid of side [side], row by row. *)
Definition coords (side : Z) : list cell :=
  r ← seqZ 1 side; c ← seqZ 1 side; [(r, c)].

(** Two distinct cells are peers when they share a row, a column or a
    block of side [n]. *)
Definition is_peer (n : Z) (a b : cell) : bool :=
  bool_decide (a ≠ b) &&
  (bool_decide (a.1 = b.1) || bool_decide (a.2 = b.2) ||
   (bool_decide ((a.1 - 1) `div` n = (b.1 - 1) `div` n) &&
    bool_decide ((a.2 - 1) `div` n = (b.2 - 1) `div` n))).

(** Modelled from the spec: [empty_grid] of [sudoku_grid_util], which is
    not part of the sources.  Every one of the n⁴ cells holds all digits
    1..n²; the peers of a cell are its row-mates, column-mates and
    block-mates minus itself; [InvalidSize] if n < 1. *)
Definition empty_grid (n : Z) : M value :=
  if decide (n < 1) then raise InvalidSize
  else
    let cs := coords (n * n) in
    let all_digits : gset Z := list_to_set (seqZ 1 (n * n)) in
    let d := map (λ c, (c, all_digits)) cs in
    let ps :=
      map (λ c, (c, list_to_set (filter (λ c', is_peer n c c') cs) : gset cell))
        cs in
    λ h, (Ret (VGrid (mkSudoku (length h) ps n)), h ++ [d]).

(** [enumerate(l, 1)] *)
Definition enumerate1 {A} (l : list A) : list (Z * A) :=
  zip (seqZ 1 (Z.of_nat (length l))) l.

(** [parse_grid(grid_rows)]; [None] is Python's [None]. *)
Definition parse_grid (fuel : nat) (grid_rows : list (list (option Z)))
  : M value :=
  let n := Z.sqrt (Z.of_nat (length grid_rows)) in
  if decide (n ^ 2 ≠ Z.of_nat (length grid_rows)) then raise AssertionError
  else
    let! new_grid := empty_grid n in
    let! new_grid :=
      for_each (enumerate1 grid_rows) new_grid
        (λ new_grid '(row, cols),
           for_each (enumerate1 cols) new_grid
             (λ new_grid '(col, val),
                match val with
                | Some val => assign fuel new_grid (row, col) val
                | None => ret new_grid
                end)) in
    if is_False new_grid then ret VFalse else ret new_grid.

(** ** Reading a grid from the lines of a file *)

(** Text is kept as strings of 8-bit characters: the characters of the
    Latin-1 range, those with a code point below 256.

    [int(c)] for a string of one such character: the digits 0 to 9 are
    accepted, every other character of that range raises [ValueError].
    (Python's [int] also accepts the decimal digits of other scripts; their
    code points are all above 255, and they are not characters of this
    development.) *)
Definition py_int (c : ascii) : M Z :=
  let k := Z.of_N (N_of_ascii c) in
  if decide (48 ≤ k ≤ 57) then ret (k - 48) else raise ValueError.

(** [[int(c) if c != "0" else None for c in cs]] *)
Fixpoint read_cells (cs : list ascii) : M (list (option Z)) :=
  match cs with
  | [] => ret []
  | c :: cs' =>
      let! v := (if decide (c ≠ "0"%char)
                 then let! k := py_int c in ret (Some k)
                 else ret None) in
      let! rest := read_cells cs' in
      ret (v :: rest)
  end.

(** [list(map(f, lines))] *)
Fixpoint map_lines {A B} (fn : A → M B) (lines : list A) : M (list B) :=
  match lines with
  | [] => ret []
  | line :: lines' =>
      let! row := fn line in
      let! rest := map_lines fn lines' in
      ret (row :: rest)
  end.

(** [read_grid(filename)], the file being given by the lines that the
    iteration over it yields, for a file whose characters are all in the
    Latin-1 range; [line[:-1]] is the line without its last character. *)
Definition read_grid (fuel : nat) (lines : list string) : M value :=
  let! grid :=
    map_lines
      (λ line, read_cells (removelast (String.list_ascii_of_string line)))
      lines in
  parse_grid fuel grid.

(** * Vocabulary of the statements *)

(** ** Predicates on grids *)

(** Entry by entry, [d'] has the keys of [d] and smaller candidate sets. *)
Definition dict_le (d' d : dict cell (gset Z)) : Prop :=
  Forall2 (λ e' e, e'.1 = e.1 ∧ e'.2 ⊆ e.2) d' d.

(** No candidate set is empty. *)
Definition nonempty_cells (d : dict cell (gset Z)) : bool :=
  forallb (λ s, bool_decide (s ≠ ∅)) (dict_values d).

(** Every cell has an entry in the peer topology, and every peer is a
    cell of the grid. *)
Definition peers_closed (ps : dict cell (gset cell)) (d : dict cell (gset Z))
  : bool :=
  forallb
    (λ k, match dict_get ps k with
          | Some s =>
              forallb (λ p, bool_decide (is_Some (dict_get d p))) (elements s)
          | None => false
          end)
    (dict_keys d).

(** Every candidate is a digit of [1, n²]. *)
Definition digits_in_range (n : Z) (d : dict cell (gset Z)) : bool :=
  forallb
    (λ s, forallb (λ x, bool_decide (1 ≤ x ≤ n * n)) (elements s))
    (dict_values d).

(** Number of candidates left in the whole grid. *)
Definition total (d : dict cell (gset Z)) : nat :=
  sum_list (map size (dict_values d)).

(** The property checked by [peers_closed]. *)
Definition closedP (ps : dict cell (gset cell)) (d : dict cell (gset Z))
  : Prop :=
  ∀ k, is_Some (dict_get d k) →
       ∃ s, dict_get ps k = Some s ∧ ∀ p, p ∈ s → is_Some (dict_get d p).

(** Post-condition of a call on the grid [g] whose dictionary was [d] in
    the store [h]: only that dictionary is written, its keys stay and its
    candidate sets shrink; the call returns the same object or [False], or
    fails on a missing key or on the budget; a returned grid has no empty
    candidate set if [d] had none; under [safe] the call returns. *)
Definition elim_post (safe : Prop) (g : Sudoku) (h : heap)
    (d : dict cell (gset Z)) (out : res value * heap) : Prop :=
  ∃ d', out.2 = <[cells g := d']> h ∧ dict_le d' d ∧
    (out.1 = Ret (VGrid g) ∨ out.1 = Ret VFalse ∨
     out.1 = Raise KeyError ∨ out.1 = OutOfFuel) ∧
    (out.1 = Ret (VGrid g) →
     nonempty_cells d = true → nonempty_cells d' = true) ∧
    (safe → out.1 = Ret (VGrid g) ∨ out.1 = Ret VFalse).

(** The statement proved of [eliminate] by induction on the budget. *)
Definition eliminate_spec (f : nat) : Prop :=
  ∀ g c x h d,
    h !! cells g = Some d →
    elim_post (closedP (peers g) d ∧ is_Some (dict_get d c) ∧ (total d < f)%nat)
      g h d (eliminate f (VGrid g) c x h).

(** The object returned by [copy] in the store [h]. *)
Definition copy_of (g : Sudoku) (h : heap) : Sudoku :=
  mkSudoku (length h) (peers g) (n g).

(** ** Sequences of calls, the search loop, budgets *)

(** One successful call of [eliminate] or [assign] on a grid: the grid
    [g] in the store [h] becomes the grid [g'] in the store [h']. *)
Inductive step : heap * Sudoku → heap * Sudoku → Prop :=
| step_eliminate f c x h g h' g' :
    eliminate f (VGrid g) c x h = (Ret (VGrid g'), h') →
    step (h, g) (h', g')
| step_assign f c x h g h' g' :
    assign f (VGrid g) c x h = (Ret (VGrid g'), h') →
    step (h, g) (h', g').

(** The list [key_list] of the two selection strategies. *)
Definition unassigned (d : dict cell (gset Z)) : list cell :=
  filter (λ key, (1 < size (dict_at d key))%nat) (dict_keys d).

(** The trials [vs], run one after the other from the store [h], all
    return [False] and leave the store [h']. *)
Inductive all_fail (trial : Z → M value) : list Z → heap → heap → Prop :=
| all_fail_nil h : all_fail trial [] h h
| all_fail_cons v vs h h1 h2 :
    trial v h = (Ret VFalse, h1) →
    all_fail trial vs h1 h2 →
    all_fail trial (v :: vs) h h2.

(** What the loop over [trials] returns, from the store [h]: [False]
    exactly when every trial returns [False], and a grid exactly when it is
    the result of the first trial that does not return [False]. *)
Definition first_success (trial : Z → M value) (trials : list Z) (h : heap)
    (out : res value) : Prop :=
  (out = Ret VFalse ↔ ∃ hk, all_fail trial trials h hk) ∧
  (∀ g', out = Ret (VGrid g') ↔
         ∃ pre v post hk h',
           trials = pre ++ v :: post ∧ all_fail trial pre h hk ∧
           trial v hk = (Ret (VGrid g'), h')).

(** [m2] gives every outcome of [m1] other than the exhausted budget. *)
Definition refines {A} (m1 m2 : M A) : Prop :=
  ∀ h r h', m1 h = (r, h') → r ≠ OutOfFuel → m2 h = (r, h').

(** ** Example inputs *)

(** A small grid: two cells that are peers of one another, the first with
    candidates 1, 2, 3 and the second with 1, 2. *)
Definition ex_cells : dict cell (gset Z) :=
  [((1, 1), {[1; 2; 3]}); ((1, 2), {[1; 2]})].

Definition ex_heap : heap := [ex_cells].

Definition ex_grid : Sudoku :=
  mkSudoku 0 [((1, 1), {[(1, 2)]}); ((1, 2), {[(1, 1)]})] 2.

(** The example grid once solved. *)
Definition ex_solved_cells : dict cell (gset Z) :=
  [((1, 1), {[1]}); ((1, 2), {[2]})].

Definition ex_solved_heap : heap := [ex_solved_cells].

Definition ex_solved_grid : Sudoku := mkSudoku 0 (peers ex_grid) 2.

(** The grid that [assign(ex_grid, (1, 1), 1)] returns: a fresh dictionary
    at the end of the store, the first one untouched. *)
Definition ex_heap' : heap :=
  ex_heap ++ [ex_solved_cells].

(** A 9×9 input with two 5s in the first row and one more prefilled cell
    after them. *)
Definition conflict_rows : list (list (option Z)) :=
  [ [Some 5; Some 5; None; None; None; None; None; None; None];
    [None; None; None; None; None; None; None; None; None];
    [None; None; None; None; None; None; None; None; None];
    [None; None; None; None; None; None; None; None; None];
    [None; None; None; None; None; None; None; None; None];
    [None; None; None; None; None; None; None; None; None];
    [None; None; None; None; None; None; None; None; None];
    [None; None; None; None; None; None; None; None; None];
    [None; None; None; None; None; None; None; None; Some 1] ].

(** A 9×9 input with two 5s in the first row, the second of them being
    the last prefilled cell. *)
Definition conflict_last_rows : list (list (option Z)) :=
  [ [Some 5; None; None; None; None; None; None; None; Some 5];
    [None; None; None; None; None; None; None; None; None];
    [None; None; None; None; None; None; None; None; None];
    [None; None; None; None; None; None; None; None; None];
    [None; None; None; None; None; None; None; None; None];
    [None; None; None; None; None; None; None; None; None];
    [None; None; None; None; None; None; None; None; None];
    [None; None; None; None; None; None; None; None; None];
    [None; None; None; None; None; None; None; None; None] ].

(** ** Vocabulary of the further properties *)

(** The cell [k], if it holds a single digit, holds one that is a
    candidate of none of its peers. *)
Definition excluded_at (ps : dict cell (gset cell)) (d : dict cell (gset Z))
    (k : cell) : Prop :=
  ∀ s pk p sp,
    dict_get d k = Some s → size s = 1%nat →
    dict_get ps k = Some pk → p ∈ pk →
    dict_get d p = Some sp → s ## sp.

(** The same for every cell of the grid, as a test. *)
Definition forced_excluded (ps : dict cell (gset cell))
    (d : dict cell (gset Z)) : bool :=
  forallb
    (λ k, match dict_get d k, dict_get ps k with
          | Some s, Some pk =>
              if decide (size s = 1%nat) then
                forallb
                  (λ p, match dict_get d p with
                        | Some sp => bool_decide (s ## sp)
                        | None => true
                        end)
                  (elements pk)
              else true
          | _, _ => true
          end)
    (dict_keys d).

(** A Python dictionary has each key once. *)
Definition keys_unique (d : dict cell (gset Z)) : bool :=
  bool_decide (NoDup (dict_keys d)).

(** A grid as the constructor builds it and the propagation keeps it:
    each key once, no empty candidate set, peers defined and inside the
    grid. *)
Definition well_formed (g : Sudoku) (d : dict cell (gset Z)) : bool :=
  keys_unique d && nonempty_cells d && peers_closed (peers g) d.

(** The strategies of the code: the two selections, the two orders. *)
Definition is_selection (nc : value → M cell) : Prop :=
  nc = most_constrained ∨ nc = least_constrained.

Definition is_order (oc : value → cell → M (list Z)) : Prop :=
  oc = ascending_order ∨ oc = descending_order.

(** [ex_cells] once 3 has been eliminated from the first cell. *)
Definition ex_cells_less : dict cell (gset Z) :=
  [((1, 1), {[1; 2]}); ((1, 2), {[1; 2]})].

(** The store after [solve_sudoku(ex_grid, most_constrained,
    ascending_order)]: the grid given, the copy on which 1 was assigned to
    the second cell, and the copy of that on which 2 was assigned to the
    first. *)
Definition ex_search_heap : heap :=
  [ ex_cells;
    [((1, 1), {[2; 3]}); ((1, 2), {[1]})];
    [((1, 1), {[2]}); ((1, 2), {[1]})] ].

(** The grid that this search returns. *)
Definition ex_search_grid : Sudoku := mkSudoku 2 (peers ex_grid) 2.

(** The computation [m] does not raise [e]. *)
Definition never_raises {A} (e : exn) (m : M A) : Prop :=
  ∀ h, (m h).1 ≠ Raise e.

(** The cells of the input in the order in which [parse_grid] goes
    through them, each with its coordinates. *)
Definition clues (grid_rows : list (list (option Z)))
  : list (cell * option Z) :=
  enumerate1 grid_rows ≫=
    (λ '(row, cols), (λ '(col, val), ((row, col), val)) <$> enumerate1 cols).

(** What [parse_grid] does for one cell of the input. *)
Definition place (f : nat) (new_grid : value) (a : cell * option Z)
  : M value :=
  match a.2 with
  | Some val => assign f new_grid a.1 val
  | None => ret new_grid
  end.

(** The grid of an outcome, for outcomes that are grids. *)
Definition grid_of (out : res value * heap) : Sudoku :=
  match out.1 with
  | Ret (VGrid g) => g
  | _ => mkSudoku 0 [] 0
  end.

(** A 4×4 input with two prefilled cells. *)
Definition ex_rows : list (list (option Z)) :=
  [ [Some 1; None; None; None];
    [None; None; Some 1; Some 2];
    [None; None; None; None];
    [None; None; None; None] ].

(** The character for a cell: ["0"] for an unknown cell. *)
Definition cell_char (v : option Z) : ascii :=
  match v with
  | None => "0"%char
  | Some k => ascii_of_N (Z.to_N (k + 48))
  end.

(** A line of text for a row, ended by the character [eol]. *)
Definition row_line (eol : ascii) (row : list (option Z)) : string :=
  String.string_of_list_ascii (map cell_char row ++ [eol]).

(** * Lemmas *)

(** ** Dictionaries: lookup after update *)

Section dict_facts.
Context {K V : Type} `{EqDecision K}.
Implicit Types (d : dict K V) (k : K) (v : V).

Lemma dict_get_set_eq d k v : dict_get (dict_set d k v) k = Some v.
Proof.
  induction d as [|[k' v'] d IH]; simpl.
  - by rewrite decide_True.
  - destruct (decide (k' = k)) as [->|Hne]; simpl.
    + by rewrite decide_True.
    + by rewrite decide_False.
Qed.

Lemma dict_get_set_ne d k k' v :
  k ≠ k' → dict_get (dict_set d k v) k' = dict_get d k'.
Proof.
  intros Hne. induction d as [|[k0 v0] d IH]; simpl.
  - by rewrite decide_False.
  - destruct (decide (k0 = k)) as [->|Hne0]; simpl.
    + by rewrite !decide_False.
    + destruct (decide (k0 = k')); auto.
Qed.

Lemma dict_get_Some_keys d k v : dict_get d k = Some v → k ∈ dict_keys d.
Proof.
  induction d as [|[k0 v0] d IH]; simpl; [done|].
  destruct (decide (k0 = k)) as [->|Hne]; intros Hg.
  - apply list_elem_of_here.
  - apply list_elem_of_further. auto.
Qed.

Lemma dict_keys_get d k : k ∈ dict_keys d → is_Some (dict_get d k).
Proof.
  induction d as [|[k0 v0] d IH]; simpl.
  - intros Hin. by apply elem_of_nil in Hin.
  - intros Hin. destruct (decide (k0 = k)) as [->|Hne]; [by eexists|].
    apply elem_of_cons in Hin as [->|Hin]; [done|]. auto.
Qed.

Lemma dict_get_Some_values d k v : dict_get d k = Some v → v ∈ dict_values d.
Proof.
  induction d as [|[k0 v0] d IH]; simpl; [done|].
  destruct (decide (k0 = k)) as [->|Hne]; intros Hg.
  - injection Hg as ->. apply list_elem_of_here.
  - apply list_elem_of_further. auto.
Qed.
End dict_facts.

(** ** The order [dict_le] *)

Lemma dict_le_refl d : dict_le d d.
Proof. apply Forall2_same_length_lookup_2; [done|]. intros i e e' ? ?. by simplify_eq. Qed.

Lemma dict_le_trans d1 d2 d3 : dict_le d1 d2 → dict_le d2 d3 → dict_le d1 d3.
Proof.
  unfold dict_le. intros H12. revert d3.
  induction H12 as [|e1 e2 d1 d2 [Hk Hs] _ IH]; intros d3 H23.
  - by inversion H23.
  - inversion H23 as [|? e3 ? d3' [Hk' Hs'] Hrest]; subst.
    constructor; [split; [congruence | set_solver] | auto].
Qed.

Lemma dict_le_keys d' d : dict_le d' d → dict_keys d' = dict_keys d.
Proof.
  unfold dict_keys. induction 1 as [|e' e d' d [Hk _] _ IH]; csimpl; [done|].
  by f_equal.
Qed.

Lemma dict_le_get d' d k :
  dict_le d' d →
  match dict_get d' k, dict_get d k with
  | Some s', Some s => s' ⊆ s
  | None, None => True
  | _, _ => False
  end.
Proof.
  induction 1 as [|[k1 s1] [k2 s2] d' d [Hk Hs] _ IH]; simpl in *; [done|].
  subst k2. by destruct (decide (k1 = k)).
Qed.

Lemma dict_le_get_Some d' d k s :
  dict_le d' d → dict_get d k = Some s →
  ∃ s', dict_get d' k = Some s' ∧ s' ⊆ s.
Proof.
  intros Hle Hg. pose proof (dict_le_get d' d k Hle) as H.
  rewrite Hg in H. destruct (dict_get d' k); [eauto | done].
Qed.

Lemma dict_le_get_Some_inv d' d k s' :
  dict_le d' d → dict_get d' k = Some s' →
  ∃ s, dict_get d k = Some s ∧ s' ⊆ s.
Proof.
  intros Hle Hg. pose proof (dict_le_get d' d k Hle) as H.
  rewrite Hg in H. destruct (dict_get d k); [eauto | done].
Qed.

Lemma dict_le_total d' d : dict_le d' d → (total d' ≤ total d)%nat.
Proof.
  unfold total, dict_values.
  induction 1 as [|e' e d' d [_ Hs] _ IH]; csimpl; [done|].
  apply subseteq_size in Hs. lia.
Qed.

Lemma dict_set_le (d : dict cell (gset Z)) k s s' :
  dict_get d k = Some s → s' ⊆ s → dict_le (dict_set d k s') d.
Proof.
  intros Hg Hs. induction d as [|[k0 s0] d IH]; simpl in *; [done|].
  destruct (decide (k0 = k)) as [->|Hne].
  - injection Hg as ->. constructor; [by split | apply dict_le_refl].
  - constructor; [by split | by apply IH].
Qed.

Lemma dict_set_total (d : dict cell (gset Z)) k s s' :
  dict_get d k = Some s → (size s' < size s)%nat →
  (total (dict_set d k s') < total d)%nat.
Proof.
  unfold total, dict_values.
  intros Hg Hs. induction d as [|[k0 s0] d IH]; simpl in *; [done|].
  destruct (decide (k0 = k)) as [->|Hne]; csimpl.
  - injection Hg as ->. lia.
  - specialize (IH Hg). lia.
Qed.

(** ** Well-formed grids *)

Lemma peers_closed_spec ps d : peers_closed ps d = true → closedP ps d.
Proof.
  unfold peers_closed. rewrite forallb_forall. intros Hall k [s Hk].
  apply dict_get_Some_keys, list_elem_of_In, Hall in Hk.
  destruct (dict_get ps k) as [s'|]; [|done].
  exists s'. split; [done|]. intros p Hp.
  rewrite forallb_forall in Hk.
  apply elem_of_elements, list_elem_of_In, Hk, bool_decide_eq_true in Hp.
  done.
Qed.

Lemma dict_le_is_Some d' d k :
  dict_le d' d → is_Some (dict_get d' k) ↔ is_Some (dict_get d k).
Proof.
  intros Hle. pose proof (dict_le_get d' d k Hle) as H.
  destruct (dict_get d' k), (dict_get d k); done.
Qed.

Lemma closedP_le ps d' d : closedP ps d → dict_le d' d → closedP ps d'.
Proof.
  intros Hc Hle k Hk. apply (dict_le_is_Some _ _ _ Hle) in Hk.
  destruct (Hc k Hk) as (s & Hs & Hp). exists s. split; [done|].
  intros p Hin. apply (dict_le_is_Some _ _ _ Hle). auto.
Qed.

Lemma nonempty_cells_spec d :
  nonempty_cells d = true ↔ Forall (λ s, s ≠ ∅) (dict_values d).
Proof.
  unfold nonempty_cells. rewrite forallb_forall, Forall_forall.
  split; intros H s Hs.
  - apply list_elem_of_In, H, bool_decide_eq_true in Hs. done.
  - apply bool_decide_eq_true, H, list_elem_of_In, Hs.
Qed.

Lemma nonempty_cells_set (d : dict cell (gset Z)) k s :
  is_Some (dict_get d k) → s ≠ ∅ →
  nonempty_cells d = true → nonempty_cells (dict_set d k s) = true.
Proof.
  rewrite !nonempty_cells_spec. unfold dict_values.
  intros Hk Hs. induction d as [|[k0 s0] d IH]; csimpl.
  - by destruct Hk.
  - simpl in Hk. destruct (decide (k0 = k)) as [->|Hne]; csimpl.
    + intros H. apply Forall_cons in H as [_ H]. by constructor.
    + intros H. apply Forall_cons in H as [H0 H]. constructor; auto.
Qed.

Lemma nonempty_cells_get d k s :
  nonempty_cells d = true → dict_get d k = Some s → s ≠ ∅.
Proof.
  rewrite nonempty_cells_spec, Forall_forall. intros H Hg.
  by apply H, (dict_get_Some_values _ k).
Qed.

(** ** Loops *)

(** An invariant of the loop body that also holds of the failing
    outcomes is an invariant of the loop. *)
Lemma for_each_inv {A S : Type} (I : res S * heap → Prop)
    (body : S → A → M S) (xs : list A) :
  (∀ s h x, x ∈ xs → I (Ret s, h) → I (body s x h)) →
  ∀ s h, I (Ret s, h) → I (for_each xs s body h).
Proof.
  induction xs as [|x xs IH]; intros Hstep s h HI; simpl; [done|].
  unfold bind.
  pose proof (Hstep s h x (list_elem_of_here _ _) HI) as Hx.
  destruct (body s x h) as [[s'|e|] h']; [|done..].
  apply IH; [|done].
  intros s0 h0 x0 Hin. apply Hstep. by apply list_elem_of_further.
Qed.

(** ** What one call of [eliminate] does to the store *)

Lemma eliminate_False f c x h : eliminate (S f) VFalse c x h = (Ret VFalse, h).
Proof. reflexivity. Qed.

(** The body of [eliminate] on a grid whose dictionary is [d]. *)
Lemma eliminate_unfold f g c x h d :
  h !! cells g = Some d →
  eliminate (S f) (VGrid g) c x h =
    match dict_get d c with
    | None => (Raise KeyError, h)
    | Some s =>
        if decide (x ∉ s) then (Ret (VGrid g), h)
        else
          let h1 := <[cells g := dict_set d c (s ∖ {[x]})]> h in
          if decide (size (s ∖ {[x]}) = 0%nat) then (Ret VFalse, h1)
          else if decide (size (s ∖ {[x]}) = 1%nat) then
            match dict_get (peers g) c with
            | None => (Raise KeyError, h1)
            | Some ps =>
                for_each (elements ps) (VGrid g)
                  (λ grid peer,
                     let! y := first_of (s ∖ {[x]}) in
                     eliminate f grid peer y) h1
            end
          else (Ret (VGrid g), h1)
    end.
Proof.
  intros Hd. simpl. unfold bind, cells_get, cells_set, peers_get, bind, as_obj,
    deref, ret, raise. simpl. rewrite Hd.
  destruct (dict_get d c) as [s|]; [|done].
  destruct (decide (x ∉ s)); [done|].
  rewrite Hd.
  destruct (decide (size (s ∖ {[x]}) = 0%nat)); [done|].
  destruct (decide (size (s ∖ {[x]}) = 1%nat)); [|done].
  destruct (dict_get (peers g) c); done.
Qed.

Lemma first_of_single (s : gset Z) :
  size s = 1%nat → ∃ y, first_of s = ret y.
Proof.
  unfold first_of, size, set_size. simpl.
  destruct (elements s) as [|y l]; [done|]. by exists y.
Qed.

Lemma size_remove_lt (s : gset Z) x : x ∈ s → (size (s ∖ {[x]}) < size s)%nat.
Proof.
  intros Hx. rewrite size_difference by (by apply singleton_subseteq_l).
  rewrite size_singleton. assert (size s ≠ 0%nat); [|lia].
  apply size_non_empty_iff. intros Hem. by apply (not_elem_of_empty (C:=gset Z) x), Hem.
Qed.

Lemma elim_post_here (safe : Prop) g h d r :
  h !! cells g = Some d →
  r = Ret (VGrid g) ∨ r = Ret VFalse ∨ r = Raise KeyError ∨ r = OutOfFuel →
  (safe → r = Ret (VGrid g) ∨ r = Ret VFalse) →
  elim_post safe g h d (r, h).
Proof.
  intros Hd Hr Hsafe. exists d. simpl. rewrite list_insert_id by done.
  split_and!; [done | apply dict_le_refl | done | done | done].
Qed.

(** A loop whose body is a call of [eliminate] on the threaded grid, as in
    the propagation to the peers and in [assign]. *)
Lemma eliminate_loop_post {A} f g (body : value → A → M value)
    (kc : A → cell) (kx : A → Z) (xs : list A) h d :
  eliminate_spec f →
  (∀ v a h, body v a h = eliminate f v (kc a) (kx a) h) →
  h !! cells g = Some d →
  elim_post (closedP (peers g) d ∧
             (∀ a, a ∈ xs → is_Some (dict_get d (kc a))) ∧ (total d < f)%nat)
    g h d (for_each xs (VGrid g) body h).
Proof.
  intros IH Hbody Hd.
  assert (cells g < length h)%nat as Hlen by (by eapply lookup_lt_Some).
  apply for_each_inv; [|by apply elim_post_here; auto].
  intros v h2 a Ha (da & Hh2 & Hlea & Hcasea & Hnea & _). simpl in *.
  rewrite Hbody.
  destruct Hcasea as [Hv|[Hv|[Hv|Hv]]]; try done; injection Hv as ->.
  - (* the grid is still alive *)
    assert (h2 !! cells g = Some da) as Hda
      by (rewrite Hh2; by apply list_lookup_insert_eq).
    destruct (IH g (kc a) (kx a) h2 da Hda)
      as (d' & Hh & Hle & Hcases & Hne & Hsafe).
    exists d'. split_and!.
    + rewrite Hh, Hh2. apply list_insert_insert_eq.
    + by eapply dict_le_trans.
    + done.
    + auto.
    + intros (Hcl & Hin & Hf). apply Hsafe. split_and!.
      * by eapply closedP_le.
      * apply (dict_le_is_Some _ _ _ Hlea). auto.
      * apply dict_le_total in Hlea. lia.
  - (* a contradiction was met earlier in the loop *)
    destruct f as [|f'].
    + exists da. simpl. split_and!; [done | done | auto | done | ].
      intros (_ & _ & ?). lia.
    + rewrite eliminate_False.
      exists da. simpl. split_and!; [done | done | auto | done | auto].
Qed.

Lemma eliminate_post f : eliminate_spec f.
Proof.
  induction f as [|f IH]; intros g c x h d Hd.
  { apply elim_post_here; [done | auto |]. intros (_ & _ & ?). lia. }
  rewrite (eliminate_unfold _ _ _ _ _ _ Hd).
  destruct (dict_get d c) as [s|] eqn:Hc.
  2:{ apply elim_post_here; [done | auto |]. intros (_ & [? ?] & _). done. }
  destruct (decide (x ∉ s)) as [Hx|Hx].
  { apply elim_post_here; auto. }
  apply dec_stable in Hx.
  set (new := s ∖ {[x]}). set (d1 := dict_set d c new).
  assert (new ⊆ s) as Hsub by apply subseteq_difference_l, reflexivity.
  assert (dict_le d1 d) as Hle1 by (by apply (dict_set_le _ _ s)).
  assert (total d1 < total d)%nat as Htot1
    by (apply (dict_set_total _ _ s); [done | by apply size_remove_lt]).
  assert (cells g < length h)%nat as Hlen by (by eapply lookup_lt_Some).
  simpl. destruct (decide (size new = 0%nat)) as [H0|H0].
  { exists d1. simpl. split_and!; [done | done | auto | done | auto]. }
  assert (nonempty_cells d = true → nonempty_cells d1 = true) as Hne1.
  { apply nonempty_cells_set; [by eexists|].
    intros Hem. apply H0. rewrite Hem. apply size_empty. }
  destruct (decide (size new = 1%nat)) as [H1|H1].
  2:{ exists d1. simpl. split_and!; [done | done | auto | auto | auto]. }
  destruct (dict_get (peers g) c) as [ps|] eqn:Hps.
  2:{ exists d1. simpl. split_and!; [done | done | auto | done | ].
      intros (Hcl & _ & _).
      destruct (Hcl c) as (? & ? & _); [by rewrite Hc | congruence]. }
  destruct (first_of_single new H1) as [y Hy].
  set (h1 := <[cells g := d1]> h).
  assert (h1 !! cells g = Some d1) as Hd1 by (by apply list_lookup_insert_eq).
  destruct (eliminate_loop_post f g
              (λ grid peer, let! y := first_of new in eliminate f grid peer y)
              id (λ _, y) (elements ps) h1 d1 IH)
    as (d' & Hh & Hle & Hcases & Hne & Hsafe); [|done|].
  { intros v a h0. unfold bind. by rewrite Hy. }
  exists d'. split_and!.
  - rewrite Hh. apply list_insert_insert_eq.
  - by eapply dict_le_trans.
  - done.
  - auto.
  - intros (Hcl & _ & Hf). apply Hsafe.
    assert (closedP (peers g) d1) as Hcl1 by (by eapply closedP_le).
    split_and!; [done | | lia].
    intros p Hp. destruct (Hcl1 c) as (ps' & Hps' & Hin).
    { rewrite (dict_le_is_Some _ _ _ Hle1), Hc. by eexists. }
    rewrite Hps in Hps'. injection Hps' as <-.
    apply Hin. by apply elem_of_elements.
Qed.

(** A call that returns a grid returns the object it was given, and the
    digit is no longer a candidate of the cell. *)
Lemma eliminate_ret_grid f g c x h d g' h' :
  h !! cells g = Some d →
  eliminate f (VGrid g) c x h = (Ret (VGrid g'), h') →
  g' = g ∧
  ∃ d' s', h' !! cells g = Some d' ∧ dict_le d' d ∧
           dict_get d' c = Some s' ∧ x ∉ s'.
Proof.
  intros Hd. destruct f as [|f]; [done|].
  assert (cells g < length h)%nat as Hlen by (by eapply lookup_lt_Some).
  rewrite (eliminate_unfold _ _ _ _ _ _ Hd).
  destruct (dict_get d c) as [s|] eqn:Hc; [|done].
  destruct (decide (x ∉ s)) as [Hx|Hx].
  { intros [= <- <-]. split; [done|]. exists d, s. auto using dict_le_refl. }
  apply dec_stable in Hx.
  set (new := s ∖ {[x]}). set (d1 := dict_set d c new).
  assert (new ⊆ s) as Hsub by apply subseteq_difference_l, reflexivity.
  assert (x ∉ new) as Hnew.
  { unfold new. rewrite elem_of_difference, elem_of_singleton. tauto. }
  assert (dict_le d1 d) as Hle1 by (by apply (dict_set_le _ _ s)).
  assert (dict_get d1 c = Some new) as Hc1 by apply dict_get_set_eq.
  simpl. destruct (decide (size new = 0%nat)); [done|].
  destruct (decide (size new = 1%nat)) as [H1|H1].
  2:{ intros [= <- <-]. split; [done|]. exists d1, new.
      split_and!; try done. by apply list_lookup_insert_eq. }
  destruct (dict_get (peers g) c) as [ps|]; [|done].
  destruct (first_of_single new H1) as [y Hy].
  set (h1 := <[cells g := d1]> h).
  assert (h1 !! cells g = Some d1) as Hd1 by (by apply list_lookup_insert_eq).
  intros Hloop.
  destruct (eliminate_loop_post f g
              (λ grid peer, let! y := first_of new in eliminate f grid peer y)
              id (λ _, y) (elements ps) h1 d1 (eliminate_post f))
    as (d' & Hh & Hle & Hcases & _); [|done|].
  { intros v a h0. unfold bind. by rewrite Hy. }
  rewrite Hloop in Hh, Hcases. simpl in *.
  destruct Hcases as [Hv|[Hv|[Hv|Hv]]]; try done. injection Hv as ->.
  split; [done|].
  destruct (dict_le_get_Some d' d1 c new Hle Hc1) as (s' & Hs' & Hsub').
  exists d', s'. split_and!.
  - rewrite Hh. apply list_lookup_insert_eq. unfold h1. by rewrite length_insert.
  - by eapply dict_le_trans.
  - done.
  - intros Hin. by apply Hnew, Hsub'.
Qed.

(** A call that the contradiction marker has reached never returns a
    grid. *)
Lemma for_each_False {A} f (kc : A → cell) (kx : A → Z) xs h :
  let out := for_each xs VFalse (λ v a, eliminate f v (kc a) (kx a)) h in
  (out.1 = Ret VFalse ∨ out.1 = OutOfFuel) ∧ out.2 = h.
Proof.
  induction xs as [|a xs IH]; simpl; [auto|].
  destruct f as [|f]; [auto|]. unfold bind.
  rewrite eliminate_False. apply IH.
Qed.

(** ** What [assign] does to the store *)

Lemma assign_unfold f g c x h d :
  h !! cells g = Some d →
  assign f (VGrid g) c x h =
    match dict_get d c with
    | None => (Raise KeyError, h ++ [d])
    | Some s =>
        for_each (elements (s ∖ {[x]})) (VGrid (copy_of g h))
          (λ grid y, eliminate f grid c y) (h ++ [d])
    end.
Proof.
  intros Hd. unfold assign, copy, cells_get, bind, as_obj, deref, ret, raise.
  simpl. rewrite Hd. simpl.
  rewrite list_lookup_middle by done.
  by destruct (dict_get d c).
Qed.

Lemma copy_of_lookup g h d : (h ++ [d]) !! cells (copy_of g h) = Some d.
Proof. by apply list_lookup_middle. Qed.

Lemma assign_post f g c x h d s :
  h !! cells g = Some d →
  dict_get d c = Some s →
  elim_post (closedP (peers g) d ∧ (total d < f)%nat)
    (copy_of g h) (h ++ [d]) d (assign f (VGrid g) c x h).
Proof.
  intros Hd Hc. rewrite (assign_unfold _ _ _ _ _ _ Hd), Hc.
  destruct (eliminate_loop_post f (copy_of g h)
              (λ grid y, eliminate f grid c y) (λ _, c) id
              (elements (s ∖ {[x]})) (h ++ [d]) d (eliminate_post f))
    as (d' & Hh & Hle & Hcases & Hne & Hsafe);
    [done | apply copy_of_lookup |].
  exists d'. split_and!; [done..|].
  intros (Hcl & Hf). apply Hsafe. split_and!; [done | | done].
  intros _ _. by eexists.
Qed.

(** After the loop of [assign] has returned a grid, none of the digits it
    went through is a candidate of the cell. *)
Lemma assign_loop_absent f g c : ∀ xs h d g' h',
  h !! cells g = Some d →
  for_each xs (VGrid g) (λ grid y, eliminate f grid c y) h
    = (Ret (VGrid g'), h') →
  g' = g ∧
  ∃ d', h' !! cells g = Some d' ∧ dict_le d' d ∧
        ∀ y s', y ∈ xs → dict_get d' c = Some s' → y ∉ s'.
Proof.
  induction xs as [|x xs IH]; intros h d g' h' Hd; simpl.
  { intros [= <- <-]. split; [done|]. exists d.
    split_and!; [done | apply dict_le_refl |].
    intros y s' Hy. by apply elem_of_nil in Hy. }
  unfold bind.
  destruct (eliminate_post f g c x h d Hd) as (d1 & _ & _ & Hcases & _).
  destruct (eliminate f (VGrid g) c x h) as [[v1|e|] h1] eqn:E; [|done..].
  simpl in Hcases.
  destruct Hcases as [Hv|[Hv|[Hv|Hv]]]; try done; injection Hv as ->.
  - destruct (eliminate_ret_grid _ _ _ _ _ _ _ _ Hd E)
      as (_ & da & sa & Hda & Hlea & Hca & Hxa).
    intros Hloop.
    destruct (IH h1 da g' h' Hda Hloop) as (-> & d' & Hd' & Hle' & Habs).
    split; [done|]. exists d'. split_and!; [done | by eapply dict_le_trans |].
    intros y s' Hy Hs'. apply elem_of_cons in Hy as [->|Hy]; [|eauto].
    destruct (dict_le_get_Some_inv d' da c s' Hle' Hs') as (s0 & Hs0 & Hsub).
    rewrite Hca in Hs0. injection Hs0 as <-.
    intros Hin. by apply Hxa, Hsub.
  - intros Hloop.
    destruct (for_each_False f (λ _ : Z, c) id xs h1) as [Hr _].
    simpl in Hr. rewrite Hloop in Hr. simpl in Hr. by destruct Hr.
Qed.

Lemma elim_post_ret safe g h d g' h' :
  h !! cells g = Some d →
  elim_post safe g h d (Ret (VGrid g'), h') →
  g' = g ∧
  ∃ d', h' = <[cells g := d']> h ∧ h' !! cells g = Some d' ∧ dict_le d' d ∧
        (nonempty_cells d = true → nonempty_cells d' = true).
Proof.
  intros Hd (d' & Hh & Hle & Hcases & Hne & _). simpl in *.
  destruct Hcases as [Hv|[Hv|[Hv|Hv]]]; try done. injection Hv as ->.
  split; [done|]. exists d'. split_and!; [done | | done | auto].
  rewrite Hh. apply list_lookup_insert_eq. by eapply lookup_lt_Some.
Qed.

Lemma step_post h g h' g' d :
  step (h, g) (h', g') →
  h !! cells g = Some d →
  ∃ d', h' !! cells g' = Some d' ∧ dict_le d' d ∧
        (nonempty_cells d = true → nonempty_cells d' = true).
Proof.
  inversion 1 as [f c x ? ? ? ? E|f c x ? ? ? ? E]; subst; intros Hd.
  - pose proof (eliminate_post f g c x h d Hd) as Hpost. rewrite E in Hpost.
    destruct (elim_post_ret _ _ _ _ _ _ Hd Hpost)
      as (-> & d' & _ & Hd' & Hle & Hne).
    by exists d'.
  - destruct (dict_get d c) as [s|] eqn:Hc.
    2:{ rewrite (assign_unfold _ _ _ _ _ _ Hd), Hc in E. done. }
    pose proof (assign_post f g c x h d s Hd Hc) as Hpost. rewrite E in Hpost.
    destruct (elim_post_ret _ _ _ _ _ _ (copy_of_lookup g h d) Hpost)
      as (-> & d' & _ & Hd' & Hle & Hne).
    by exists d'.
Qed.

Lemma lineage_post a b :
  rtc step a b →
  ∀ d, a.1 !! cells a.2 = Some d →
       ∃ d', b.1 !! cells b.2 = Some d' ∧ dict_le d' d ∧
             (nonempty_cells d = true → nonempty_cells d' = true).
Proof.
  induction 1 as [[h g]|[h g] [h1 g1] b Hstep _ IH]; intros d Hd.
  - exists d. split_and!; [done | apply dict_le_refl | done].
  - destruct (step_post _ _ _ _ _ Hstep Hd) as (d1 & Hd1 & Hle1 & Hne1).
    destruct (IH d1 Hd1) as (d' & Hd' & Hle' & Hne').
    exists d'. split_and!; [done | by eapply dict_le_trans | auto].
Qed.

Lemma ex_assign :
  assign 10 (VGrid ex_grid) (1, 1) 1 ex_heap
    = (Ret (VGrid (copy_of ex_grid ex_heap)), ex_heap').
Proof. vm_compute. reflexivity. Qed.

Lemma digits_in_range_get n d k s x :
  digits_in_range n d = true → dict_get d k = Some s → x ∈ s → 1 ≤ x ≤ n * n.
Proof.
  unfold digits_in_range. rewrite forallb_forall. intros Hall Hk Hx.
  apply dict_get_Some_values, list_elem_of_In, Hall in Hk.
  rewrite forallb_forall in Hk.
  apply elem_of_elements, list_elem_of_In, Hk, bool_decide_eq_true in Hx.
  done.
Qed.

(** ** Minimum and maximum of a list, position of an element *)

Section extremum.
Variable op : nat → nat → nat.
Variable R : nat → nat → Prop.
Hypothesis op_sel : ∀ a b, op a b = a ∨ op a b = b.
Hypothesis op_l : ∀ a b, R (op a b) a.
Hypothesis op_r : ∀ a b, R (op a b) b.
Hypothesis R_refl : ∀ a, R a a.
Hypothesis R_trans : ∀ a b c, R a b → R b c → R a c.

Lemma foldl_op_in l : ∀ x, foldl op x l ∈ x :: l.
Proof.
  induction l as [|y l IH]; intros x; simpl.
  - apply list_elem_of_here.
  - specialize (IH (op x y)). apply elem_of_cons in IH as [IH|IH].
    + rewrite IH. destruct (op_sel x y) as [-> | ->].
      * apply list_elem_of_here.
      * apply list_elem_of_further, list_elem_of_here.
    + by do 2 apply list_elem_of_further.
Qed.

Lemma foldl_op_R l : ∀ x y, y ∈ x :: l → R (foldl op x l) y.
Proof.
  induction l as [|z l IH]; intros x y Hy; simpl.
  - apply elem_of_cons in Hy as [->|Hy]; [done|]. by apply elem_of_nil in Hy.
  - apply elem_of_cons in Hy as [->|Hy].
    + eapply R_trans; [apply IH, list_elem_of_here | apply op_l].
    + apply elem_of_cons in Hy as [->|Hy].
      * eapply R_trans; [apply IH, list_elem_of_here | apply op_r].
      * by apply IH, list_elem_of_further.
Qed.
End extremum.

Lemma index_of_elem l x :
  x ∈ l → ∃ i, index_of l x = Some i ∧ l !! i = Some x.
Proof.
  induction l as [|y l IH]; intros Hx; simpl.
  - by apply elem_of_nil in Hx.
  - destruct (decide (y = x)) as [->|Hne]; [by exists O|].
    apply elem_of_cons in Hx as [->|Hx]; [done|].
    destruct (IH Hx) as (i & -> & Hi). by exists (S i).
Qed.

Lemma unassigned_elem d k :
  k ∈ unassigned d ↔ (1 < size (dict_at d k))%nat.
Proof.
  unfold unassigned. rewrite list_elem_of_filter. split; [by intros [? _]|].
  intros Hk. split; [done|]. unfold dict_at in Hk.
  destruct (dict_get d k) as [s|] eqn:Hg; [by eapply dict_get_Some_keys|].
  change (1 < size (∅ : gset Z))%nat in Hk. rewrite size_empty in Hk. lia.
Qed.

(** The selection shared by the two strategies: [pick] is [min] or
    [max]. *)
Lemma select_spec (pick : list nat → M nat) (op : nat → nat → nat)
    (R : nat → nat → Prop) d h k :
  (∀ x l h, pick (x :: l) h = (Ret (foldl op x l), h)) →
  (∀ a b, op a b = a ∨ op a b = b) →
  (∀ a b, R (op a b) a) → (∀ a b, R (op a b) b) →
  (∀ a, R a a) → (∀ a b c, R a b → R b c → R a c) →
  (1 < size (dict_at d k))%nat →
  ∃ c, (let! m := pick (map (λ k, size (dict_at d k)) (unassigned d)) in
        let! i := py_index (map (λ k, size (dict_at d k)) (unassigned d)) m in
        py_nth (unassigned d) i) h = (Ret c, h) ∧
       c ∈ dict_keys d ∧ (1 < size (dict_at d c))%nat ∧
       ∀ k', (1 < size (dict_at d k'))%nat →
             R (size (dict_at d c)) (size (dict_at d k')).
Proof.
  intros Hpick Hsel Hl Hr Hrefl Htrans Hk.
  apply unassigned_elem in Hk.
  set (ks := unassigned d) in *.
  set (counts := map (λ k, size (dict_at d k)) ks).
  destruct counts as [|x l] eqn:Hcounts.
  { destruct ks; [by apply elem_of_nil in Hk | done]. }
  unfold bind. rewrite Hpick. set (m := foldl op x l).
  assert (m ∈ counts) as Hm by (rewrite Hcounts; by apply foldl_op_in).
  rewrite <- Hcounts.
  destruct (index_of_elem counts m Hm) as (i & Hi & Hlook).
  unfold py_index. rewrite Hi. unfold ret, py_nth.
  unfold counts in Hlook. rewrite list_lookup_fmap in Hlook.
  destruct (ks !! i) as [c|] eqn:Hc; [|done].
  simpl in Hlook. injection Hlook as Hsize.
  exists c. split; [done|].
  assert (c ∈ ks) as Hin by (by eapply list_elem_of_lookup_2).
  split_and!.
  - unfold ks, unassigned in Hin. by apply list_elem_of_filter in Hin as [_ ?].
  - by apply unassigned_elem.
  - intros k' Hk'. rewrite Hsize. unfold m.
    apply (foldl_op_R op R); [done..|].
    rewrite <- Hcounts. unfold counts.
    apply list_elem_of_fmap. exists k'. split; [done|].
    by apply unassigned_elem.
Qed.

Lemma solved_unassigned g h d :
  h !! cells g = Some d →
  (solved (VGrid g) h).1 = Ret true →
  unassigned d = [].
Proof.
  intros Hd. unfold solved, bind, as_obj, deref, ret. simpl. rewrite Hd. simpl.
  intros [= Hall]. rewrite forallb_forall in Hall.
  destruct (unassigned d) as [|k l] eqn:Hu; [done|]. exfalso.
  assert (k ∈ unassigned d) as Hk by (rewrite Hu; apply list_elem_of_here).
  pose proof (proj1 (unassigned_elem d k) Hk) as Hsize.
  unfold unassigned in Hk. apply list_elem_of_filter in Hk as [_ Hk].
  apply dict_keys_get in Hk as [s Hs].
  unfold dict_at in Hsize. rewrite Hs in Hsize.
  change (1 < size s)%nat in Hsize.
  apply dict_get_Some_values, list_elem_of_In, Hall, bool_decide_eq_true in Hs.
  lia.
Qed.

(** ** The search loop *)

Lemma try_choices_fail trial vs : ∀ h,
  (try_choices trial vs h).1 = Ret VFalse ↔ ∃ hk, all_fail trial vs h hk.
Proof.
  induction vs as [|v vs IH]; intros h; simpl.
  - split; [intros _; exists h; constructor | done].
  - unfold bind. destruct (trial v h) as [[[|g1]|e|] h1] eqn:E; simpl.
    + rewrite IH. split.
      * intros [hk Hk]. exists hk. by econstructor.
      * intros [hk Hk]. inversion Hk as [|? ? ? h1' ? E' Hrest]; subst.
        rewrite E in E'. injection E' as <-. by exists hk.
    + split; [done|]. intros [hk Hk]. inversion Hk; subst. congruence.
    + split; [done|]. intros [hk Hk]. inversion Hk; subst. congruence.
    + split; [done|]. intros [hk Hk]. inversion Hk; subst. congruence.
Qed.

Lemma try_choices_grid trial vs g' : ∀ h,
  (try_choices trial vs h).1 = Ret (VGrid g') ↔
  ∃ pre v post hk h',
    vs = pre ++ v :: post ∧ all_fail trial pre h hk ∧
    trial v hk = (Ret (VGrid g'), h').
Proof.
  induction vs as [|v vs IH]; intros h; simpl.
  - split; [done|]. intros (pre & v & post & _ & _ & Heq & _).
    by destruct pre.
  - unfold bind. destruct (trial v h) as [[[|g1]|e|] h1] eqn:E; simpl.
    + rewrite IH. split.
      * intros (pre & v' & post & hk & h' & -> & Hpre & Hv').
        exists (v :: pre), v', post, hk, h'. split_and!; [done | | done].
        by econstructor.
      * intros (pre & v' & post & hk & h' & Heq & Hpre & Hv').
        destruct pre as [|p pre]; simpl in Heq; injection Heq as <- ->.
        { inversion Hpre; subst. congruence. }
        inversion Hpre as [|? ? ? h1' ? E' Hrest]; subst.
        rewrite E in E'. injection E' as <-.
        by exists pre, v', post, hk, h'.
    + split.
      * intros [= ->]. exists [], v, vs, h, h1. split_and!; [done | constructor | done].
      * intros (pre & v' & post & hk & h' & Heq & Hpre & Hv').
        destruct pre as [|p pre]; simpl in Heq; injection Heq as <- ->.
        { inversion Hpre; subst. congruence. }
        inversion Hpre; subst. congruence.
    + split; [done|].
      intros (pre & v' & post & hk & h' & Heq & Hpre & Hv').
      destruct pre as [|p pre]; simpl in Heq; injection Heq as <- ->;
        inversion Hpre; subst; congruence.
    + split; [done|].
      intros (pre & v' & post & hk & h' & Heq & Hpre & Hv').
      destruct pre as [|p pre]; simpl in Heq; injection Heq as <- ->;
        inversion Hpre; subst; congruence.
Qed.

Lemma solved_store v h : (solved v h).2 = h.
Proof.
  unfold solved, bind, as_obj, deref, ret, raise.
  destruct v as [|g]; [done|]. simpl. by destruct (h !! cells g).
Qed.

Lemma bind_Ret {A B} (m : M A) (k : A → M B) h a h' :
  m h = (Ret a, h') → bind m k h = k a h'.
Proof. unfold bind. by intros ->. Qed.

Lemma solve_sudoku_unfold next_cell order_choices f g h :
  solve_sudoku next_cell order_choices (S f) (VGrid g) h =
    (let! done := solved (VGrid g) in
     if (done : bool) then ret (VGrid g)
     else
       let! next_idx := next_cell (VGrid g) in
       let! choices := order_choices (VGrid g) next_idx in
       try_choices
         (λ choice,
            let! new_grid := assign f (VGrid g) next_idx choice in
            solve_sudoku next_cell order_choices f new_grid)
         choices) h.
Proof. reflexivity. Qed.

(** ** A larger budget does not change a result *)

Lemma refines_refl {A} (m : M A) : refines m m.
Proof. by intros h r h'. Qed.

Lemma refines_bind {A B} (m1 m2 : M A) (k1 k2 : A → M B) :
  refines m1 m2 → (∀ a, refines (k1 a) (k2 a)) →
  refines (bind m1 k1) (bind m2 k2).
Proof.
  intros Hm Hk h r h'. unfold bind.
  destruct (m1 h) as [[a|e|] h1] eqn:E.
  - rewrite (Hm _ _ _ E) by done. apply Hk.
  - intros [= <- <-] _. by rewrite (Hm _ _ _ E).
  - by intros [= <- <-].
Qed.

Lemma refines_for_each {A S} (body1 body2 : S → A → M S) xs :
  (∀ s a, refines (body1 s a) (body2 s a)) →
  ∀ s, refines (for_each xs s body1) (for_each xs s body2).
Proof.
  intros Hb. induction xs as [|a xs IH]; intros s; simpl.
  - apply refines_refl.
  - apply refines_bind; [apply Hb | apply IH].
Qed.

Lemma refines_try_choices trial1 trial2 vs :
  (∀ v, refines (trial1 v) (trial2 v)) →
  refines (try_choices trial1 vs) (try_choices trial2 vs).
Proof.
  intros Ht. induction vs as [|v vs IH]; simpl.
  - apply refines_refl.
  - apply refines_bind; [apply Ht|]. intros outcome.
    destruct (negb (is_False outcome)); [apply refines_refl | apply IH].
Qed.

Lemma eliminate_fuel_mono f : ∀ f' v c x,
  (f ≤ f')%nat → refines (eliminate f v c x) (eliminate f' v c x).
Proof.
  induction f as [|f IH]; intros f' v c x Hf.
  { intros h r h' [= <- <-]. done. }
  destruct f' as [|f']; [lia|]. simpl.
  destruct (is_False v); [apply refines_refl|].
  apply refines_bind; [apply refines_refl|]. intros s.
  destruct (decide (x ∉ s)); [apply refines_refl|].
  apply refines_bind; [apply refines_refl|]. intros _.
  destruct (decide (size (s ∖ {[x]}) = 0%nat)); [apply refines_refl|].
  destruct (decide (size (s ∖ {[x]}) = 1%nat)); [|apply refines_refl].
  apply refines_bind; [apply refines_refl|]. intros ps.
  apply refines_for_each. intros grid peer.
  apply refines_bind; [apply refines_refl|]. intros y.
  apply IH. lia.
Qed.

Lemma assign_fuel_mono f f' v c x :
  (f ≤ f')%nat → refines (assign f v c x) (assign f' v c x).
Proof.
  intros Hf. unfold assign.
  apply refines_bind; [apply refines_refl|]. intros grid.
  apply refines_bind; [apply refines_refl|]. intros s.
  destruct (is_False grid); [apply refines_refl|].
  apply refines_for_each. intros grid' y. by apply eliminate_fuel_mono.
Qed.

Lemma solve_sudoku_fuel_mono next_cell order_choices f : ∀ f' v,
  (f ≤ f')%nat →
  refines (solve_sudoku next_cell order_choices f v)
    (solve_sudoku next_cell order_choices f' v).
Proof.
  induction f as [|f IH]; intros f' v Hf.
  { intros h r h' [= <- <-]. done. }
  destruct f' as [|f']; [lia|]. simpl.
  destruct (is_False v); [apply refines_refl|].
  apply refines_bind; [apply refines_refl|]. intros [|]; [apply refines_refl|].
  apply refines_bind; [apply refines_refl|]. intros next_idx.
  apply refines_bind; [apply refines_refl|]. intros choices.
  apply refines_try_choices. intros choice.
  apply refines_bind; [apply assign_fuel_mono; lia|]. intros new_grid.
  apply IH. lia.
Qed.

Lemma parse_grid_fuel_mono f f' grid_rows :
  (f ≤ f')%nat → refines (parse_grid f grid_rows) (parse_grid f' grid_rows).
Proof.
  intros Hf. unfold parse_grid.
  destruct (decide (_ ≠ _)); [apply refines_refl|].
  apply refines_bind; [apply refines_refl|]. intros new_grid.
  apply refines_bind; [|intros ?; apply refines_refl].
  apply refines_for_each. intros grid [row cols].
  apply refines_for_each. intros grid' [col [val|]]; [|apply refines_refl].
  by apply assign_fuel_mono.
Qed.

(** ** The store only grows *)

Lemma assign_extends f v c x h : h `prefix_of` (assign f v c x h).2.
Proof.
  destruct v as [|g]; [done|].
  destruct (h !! cells g) as [d|] eqn:Hd.
  2:{ unfold assign, copy, bind, as_obj, deref, ret. simpl. by rewrite Hd. }
  destruct (dict_get d c) as [s|] eqn:Hc.
  2:{ rewrite (assign_unfold _ _ _ _ _ _ Hd), Hc. by apply prefix_app_r. }
  destruct (assign_post f g c x h d s Hd Hc) as (d' & -> & _).
  simpl. rewrite insert_app_r_alt by done. by apply prefix_app_r.
Qed.

Lemma field0_store v h : (field0 v h).2 = h.
Proof.
  destruct v as [|g]; [done|]. unfold field0, deref.
  by destruct (h !! cells g).
Qed.

Lemma most_constrained_store v h : (most_constrained v h).2 = h.
Proof.
  unfold most_constrained, bind.
  pose proof (field0_store v h) as Hh.
  destruct (field0 v h) as [[d|e|] h0]; simpl in Hh; subst; [|done..].
  unfold py_min, py_index, py_nth, ret, raise.
  repeat case_match; by simplify_eq.
Qed.

Lemma ascending_order_store v c h : (ascending_order v c h).2 = h.
Proof.
  unfold ascending_order, bind.
  pose proof (field0_store v h) as Hh.
  destruct (field0 v h) as [[d|e|] h0]; simpl in Hh; subst; [|done..].
  by destruct (dict_get d c).
Qed.

(** With strategies that leave the existing dictionaries alone, so does
    the whole search: no branch writes to a grid of an enclosing call. *)
Lemma solve_sudoku_extends next_cell order_choices :
  (∀ v h, h `prefix_of` (next_cell v h).2) →
  (∀ v c h, h `prefix_of` (order_choices v c h).2) →
  ∀ f v h, h `prefix_of` (solve_sudoku next_cell order_choices f v h).2.
Proof.
  intros Hnc Hoc. induction f as [|f IH]; intros v h; [done|].
  destruct v as [|g]; [done|]. rewrite solve_sudoku_unfold. unfold bind at 1.
  pose proof (solved_store (VGrid g) h) as Hh.
  destruct (solved (VGrid g) h) as [[[|]|e|] h0]; simpl in Hh; subst;
    [done| |done..].
  unfold bind at 1. pose proof (Hnc (VGrid g) h) as H1.
  destruct (next_cell (VGrid g) h) as [[c|e|] h1]; simpl in H1; [|done..].
  unfold bind at 1. pose proof (Hoc (VGrid g) c h1) as H2.
  destruct (order_choices (VGrid g) c h1) as [[vs|e|] h2]; simpl in H2;
    [|by etrans..].
  assert (h `prefix_of` h2) as H02 by (by etrans). clear H1 H2.
  revert h2 H02. induction vs as [|x vs IHvs]; intros h2 H02; [done|].
  simpl. unfold bind at 1. unfold bind at 1.
  pose proof (assign_extends f (VGrid g) c x h2) as Ha.
  destruct (assign f (VGrid g) c x h2) as [[v'|e|] h3]; simpl in Ha;
    [|by etrans..].
  pose proof (IH v' h3) as Hs.
  destruct (solve_sudoku next_cell order_choices f v' h3) as [[o|e|] h4];
    simpl in Hs; [|by do 2 etrans..].
  destruct (negb (is_False o)); simpl; [by do 2 etrans|].
  apply IHvs. by do 2 etrans.
Qed.

(** ** The empty grid is well formed, and stays so *)

Lemma dict_get_tabulate {V} (fn : cell → V) cs k :
  k ∈ cs → dict_get (map (λ c, (c, fn c)) cs) k = Some (fn k).
Proof.
  induction cs as [|c cs IH]; intros Hk; simpl.
  - by apply elem_of_nil in Hk.
  - destruct (decide (c = k)) as [->|Hne]; [done|].
    apply elem_of_cons in Hk as [->|Hk]; [done | auto].
Qed.

Lemma dict_keys_tabulate {V} (fn : cell → V) cs :
  dict_keys (map (λ c, (c, fn c)) cs) = cs.
Proof.
  unfold dict_keys. induction cs as [|c cs IH]; csimpl; [done|]. by f_equal.
Qed.

Lemma dict_values_tabulate {V} (fn : cell → V) cs :
  dict_values (map (λ c, (c, fn c)) cs) = map fn cs.
Proof.
  unfold dict_values. induction cs as [|c cs IH]; csimpl; [done|]. by f_equal.
Qed.

Lemma empty_grid_well_formed (bs : Z) (h : heap) :
  1 ≤ bs →
  ∃ g d, empty_grid bs h = (Ret (VGrid g), h ++ [d]) ∧
         (h ++ [d]) !! cells g = Some d ∧ n g = bs ∧
         nonempty_cells d = true ∧ peers_closed (peers g) d = true ∧
         digits_in_range bs d = true.
Proof.
  intros Hbs. unfold empty_grid. rewrite decide_False by lia.
  eexists _, _. split; [reflexivity|]. simpl.
  split_and!; [by apply list_lookup_middle | done | | |].
  - unfold nonempty_cells. rewrite dict_values_tabulate.
    apply forallb_forall. intros s Hs. apply in_map_iff in Hs as (c & <- & _).
    apply bool_decide_eq_true. intros Hem.
    apply (not_elem_of_empty (C:=gset Z) 1). rewrite <- Hem.
    apply elem_of_list_to_set, elem_of_seqZ. nia.
  - unfold peers_closed. rewrite dict_keys_tabulate.
    apply forallb_forall. intros k Hk. apply list_elem_of_In in Hk.
    rewrite (dict_get_tabulate
               (λ c, list_to_set (filter (λ c', is_peer bs c c')
                                    (coords (bs * bs)))) _ _ Hk).
    apply forallb_forall. intros p Hp.
    apply list_elem_of_In, elem_of_elements, elem_of_list_to_set,
      list_elem_of_filter in Hp as [_ Hp].
    apply bool_decide_eq_true.
    rewrite (dict_get_tabulate (λ _, list_to_set (seqZ 1 (bs * bs))) _ _ Hp).
    by eexists.
  - unfold digits_in_range. rewrite dict_values_tabulate.
    apply forallb_forall. intros s Hs. apply in_map_iff in Hs as (c & <- & _).
    apply forallb_forall. intros x Hx.
    apply list_elem_of_In, elem_of_elements, elem_of_list_to_set,
      elem_of_seqZ in Hx.
    apply bool_decide_eq_true. lia.
Qed.

Lemma peers_closed_le ps d' d :
  dict_le d' d → peers_closed ps d = true → peers_closed ps d' = true.
Proof.
  intros Hle. unfold peers_closed. rewrite (dict_le_keys _ _ Hle).
  rewrite !forallb_forall. intros Hall k Hk. specialize (Hall k Hk).
  destruct (dict_get ps k) as [s|]; [|done].
  rewrite forallb_forall in Hall. apply forallb_forall. intros p Hp.
  specialize (Hall p Hp). apply bool_decide_eq_true in Hall.
  apply bool_decide_eq_true. by apply (dict_le_is_Some _ _ _ Hle).
Qed.

Lemma digits_in_range_le bs d' d :
  dict_le d' d → digits_in_range bs d = true → digits_in_range bs d' = true.
Proof.
  unfold digits_in_range, dict_values.
  induction 1 as [|e' e d' d [_ Hs] _ IH]; csimpl; [done|].
  intros [He Hd]%andb_prop. apply andb_true_intro. split; [|auto].
  rewrite forallb_forall in He. apply forallb_forall. intros x Hx.
  apply He, list_elem_of_In, elem_of_elements, Hs, elem_of_elements,
    list_elem_of_In, Hx.
Qed.

(** Every successful call keeps the grid well formed. *)
Lemma step_well_formed h g h' g' d :
  step (h, g) (h', g') →
  h !! cells g = Some d →
  nonempty_cells d = true →
  peers_closed (peers g) d = true →
  digits_in_range (n g) d = true →
  ∃ d', h' !! cells g' = Some d' ∧ nonempty_cells d' = true ∧
        peers_closed (peers g') d' = true ∧
        digits_in_range (n g') d' = true ∧ (total d' ≤ total d)%nat.
Proof.
  intros Hstep Hd Hne Hcl Hrange.
  destruct (step_post _ _ _ _ _ Hstep Hd) as (d' & Hd' & Hle & Hne').
  assert (peers g' = peers g ∧ n g' = n g) as [-> ->].
  { inversion Hstep as [f c x ? ? ? ? E|f c x ? ? ? ? E]; subst.
    - by destruct (eliminate_ret_grid _ _ _ _ _ _ _ _ Hd E) as [-> _].
    - destruct (dict_get d c) as [s|] eqn:Hc.
      2:{ rewrite (assign_unfold _ _ _ _ _ _ Hd), Hc in E. done. }
      pose proof (assign_post f g c x h d s Hd Hc) as Hpost.
      rewrite E in Hpost.
      by destruct (elim_post_ret _ _ _ _ _ _ (copy_of_lookup g h d) Hpost)
        as [-> _]. }
  exists d'. split_and!; [done | auto | by eapply peers_closed_le
                         | by eapply digits_in_range_le
                         | by apply dict_le_total].
Qed.

(** ** Calling [eliminate] again on the object it was given

    [eliminate] writes the dictionary before it tests for the empty set:
    after a call that returned [False], the object passed in is left with
    the shrunk candidate set, and a second call on that object (not on the
    [False] it returned) finds the digit absent and returns the object. *)
Example eliminate_again_on_same_object :
  let out1 := eliminate 1 (VGrid ex_solved_grid) (1, 1) 1 ex_solved_heap in
  out1.1 = Ret VFalse ∧
  out1.2 = [ [((1, 1), ∅); ((1, 2), {[2]})] ] ∧
  (eliminate 1 (VGrid ex_solved_grid) (1, 1) 1 out1.2).1
    = Ret (VGrid ex_solved_grid).
Proof. vm_compute. done. Qed.

(** ** Prefilled cells after a conflict *)

(** Once the grid under construction is [False], the loop over a row
    raises [AttributeError] at the first prefilled cell it meets. *)
Lemma row_after_False f (row : Z) (cols : list (Z * option Z)) h :
  (∃ col val, (col, Some val) ∈ cols) →
  for_each cols VFalse
    (λ new_grid '(col, val),
       match val with
       | Some val => assign f new_grid (row, col) val
       | None => ret new_grid
       end) h = (Raise AttributeError, h).
Proof.
  induction cols as [|[col [val|]] cols IH]; intros (col' & val' & Hin).
  - by apply elem_of_nil in Hin.
  - done.
  - simpl. unfold bind, ret. apply IH.
    apply elem_of_cons in Hin as [[=]|Hin]. eauto.
Qed.

(** ** Where a failing call leaves the empty set *)





(** * The claims *)

(** C1. [eliminate] and [solve_sudoku] return [False] at once when given
    [False], but [assign] does not: it calls [grid.copy()] before it tests
    [grid == False], and [False] has no [copy] attribute. *)
Theorem False_is_absorbing_but_for_assign (next_cell : value → M cell)
    (order_choices : value → cell → M (list Z)) (f : nat) (c : cell)
    (x : Z) (h : heap) :
  eliminate (S f) VFalse c x h = (Ret VFalse, h) ∧
  solve_sudoku next_cell order_choices (S f) VFalse h = (Ret VFalse, h) ∧
  assign f VFalse c x h = (Raise AttributeError, h).
Proof. split_and!; reflexivity. Qed.

(** C2. [parse_grid] on an input with a conflicting prefilled cell: when
    another prefilled cell follows the conflict, the next [assign] is
    called on [False] and raises [AttributeError]; [False] is returned
    only when the conflicting cell is the last prefilled one. *)
Theorem parse_grid_conflict (f : nat) :
  (2 ≤ f)%nat →
  (parse_grid f conflict_rows []).1 = Raise AttributeError ∧
  (parse_grid f conflict_last_rows []).1 = Ret VFalse.
Proof.
  intros Hf. split.
  - destruct (parse_grid 2 conflict_rows []) as [r h'] eqn:E.
    assert (r = Raise AttributeError) as ->
      by (apply (f_equal fst) in E; vm_compute in E; congruence).
    by rewrite (parse_grid_fuel_mono 2 f _ Hf _ _ _ E).
  - destruct (parse_grid 2 conflict_last_rows []) as [r h'] eqn:E.
    assert (r = Ret VFalse) as ->
      by (apply (f_equal fst) in E; vm_compute in E; congruence).
    by rewrite (parse_grid_fuel_mono 2 f _ Hf _ _ _ E).
Qed.

Lemma parse_grid_conflict_witness :
  (parse_grid 2 conflict_rows []).1 = Raise AttributeError ∧
  (parse_grid 2 conflict_last_rows []).1 = Ret VFalse.
Proof. apply (parse_grid_conflict 2). lia. Defined.

(** C3. [assign] leaves the caller's grid as it was, whatever it returns:
    the store after the call is the store before it, followed by the
    dictionary of the copy, so that every dictionary that existed before
    the call, the one of the grid passed in included, is unchanged. *)
Theorem assign_leaves_caller_grid f g c x h :
  let h' := (assign f (VGrid g) c x h).2 in
  h `prefix_of` h' ∧ h' !! cells g = h !! cells g.
Proof.
  simpl. pose proof (assign_extends f (VGrid g) c x h) as Hpre.
  split; [done|]. destruct (h !! cells g) as [d|] eqn:Hd.
  - destruct Hpre as [k ->]. by apply lookup_app_l_Some.
  - unfold assign, copy, bind, as_obj, deref, ret. simpl. by rewrite Hd.
Qed.




(** C5. On a well-formed grid, with a budget above the number of
    candidates left, [assign(grid, cell, digit)] returns [False] (no
    exception) when [digit] is not a candidate of [cell]; in particular
    when [digit] lies outside [1, n²], and when the candidate set of
    [cell] is a singleton holding another digit. *)
Theorem assign_conflict f g c x h d s :
  h !! cells g = Some d →
  peers_closed (peers g) d = true →
  nonempty_cells d = true →
  (total d < f)%nat →
  dict_get d c = Some s →
  x ∉ s ∨
  ((x < 1 ∨ n g * n g < x) ∧ digits_in_range (n g) d = true) ∨
  (∃ y, s = {[y]} ∧ y ≠ x) →
  (assign f (VGrid g) c x h).1 = Ret VFalse.
Proof.
  intros Hd Hcl Hne Hf Hc Hcase.
  assert (x ∉ s) as Hx.
  { destruct Hcase as [Hx|[[Hout Hrange]|(y & -> & Hy)]]; [done| |].
    - intros Hin. pose proof (digits_in_range_get _ _ _ _ _ Hrange Hc Hin). lia.
    - intros Hin. apply elem_of_singleton in Hin. congruence. }
  apply peers_closed_spec in Hcl.
  pose proof (assign_post f g c x h d s Hd Hc) as Hpost.
  destruct (assign f (VGrid g) c x h) as [r h'] eqn:E. simpl.
  assert (r = Ret (VGrid (copy_of g h)) ∨ r = Ret VFalse) as [-> | ->];
    [|exfalso|done].
  { destruct Hpost as (_ & _ & _ & _ & _ & Hsafe). by apply Hsafe. }
  destruct (elim_post_ret _ _ _ _ _ _ (copy_of_lookup g h d) Hpost)
    as (_ & d' & _ & Hd' & Hle & Hne').
  rewrite (assign_unfold _ _ _ _ _ _ Hd), Hc in E.
  destruct (assign_loop_absent _ _ _ _ _ _ _ _ (copy_of_lookup g h d) E)
    as (_ & d'' & Hd'' & _ & Habs).
  rewrite Hd' in Hd''. injection Hd'' as <-.
  destruct (dict_le_get_Some d' d c s Hle Hc) as (s' & Hs' & Hsub).
  pose proof (nonempty_cells_get d' c s' (Hne' Hne) Hs') as Hs'ne.
  apply Hs'ne. apply leibniz_equiv. intros y. split; [|intros Hy; by apply not_elem_of_empty in Hy].
  intros Hy. exfalso. apply (Habs y s'); [|done..].
  apply elem_of_elements, elem_of_difference. split; [by apply Hsub|].
  intros ->%elem_of_singleton. by apply Hx, Hsub.
Qed.

Lemma assign_conflict_witness :
  (assign 10 (VGrid ex_grid) (1, 2) 3 ex_heap).1 = Ret VFalse ∧
  (assign 10 (VGrid ex_grid) (1, 2) 0 ex_heap).1 = Ret VFalse ∧
  (assign 10 (VGrid ex_solved_grid) (1, 2) 1
     ex_solved_heap).1 = Ret VFalse.
Proof.
  split_and!.
  - apply (assign_conflict 10 ex_grid (1, 2) 3 ex_heap ex_cells {[1; 2]}).
    + reflexivity.
    + vm_compute. reflexivity.
    + vm_compute. reflexivity.
    + vm_compute. lia.
    + reflexivity.
    + left. vm_compute. intros H. discriminate H.
  - apply (assign_conflict 10 ex_grid (1, 2) 0 ex_heap ex_cells {[1; 2]}).
    + reflexivity.
    + vm_compute. reflexivity.
    + vm_compute. reflexivity.
    + vm_compute. lia.
    + reflexivity.
    + right. left. split; [left; simpl; lia | vm_compute; reflexivity].
  - apply (assign_conflict 10 ex_solved_grid (1, 2) 1
             ex_solved_heap ex_solved_cells {[2]}).
    + reflexivity.
    + vm_compute. reflexivity.
    + vm_compute. reflexivity.
    + vm_compute. lia.
    + reflexivity.
    + right. right. exists 2. split; [reflexivity | lia].
Defined.

(** C6. [solve_sudoku] on a solved grid returns that grid and leaves the
    store as it was.  On a grid that is not solved, with [c] the cell the
    selection strategy returns and [trials] the values the ordering
    strategy returns, it runs [assign(grid, c, v)] followed by the
    recursive call for each [v] of [trials] in order, returns the first
    result that is not [False], and returns [False] exactly when every
    trial does. *)
Theorem solve_sudoku_search (next_cell : value → M cell)
    (order_choices : value → cell → M (list Z)) (f : nat) (g : Sudoku)
    (h : heap) :
  ((solved (VGrid g) h).1 = Ret true →
   solve_sudoku next_cell order_choices (S f) (VGrid g) h
     = (Ret (VGrid g), h)) ∧
  (∀ c h1 trials h2,
     (solved (VGrid g) h).1 = Ret false →
     next_cell (VGrid g) h = (Ret c, h1) →
     order_choices (VGrid g) c h1 = (Ret trials, h2) →
     first_success
       (λ choice,
          let! new_grid := assign f (VGrid g) c choice in
          solve_sudoku next_cell order_choices f new_grid)
       trials h2
       (solve_sudoku next_cell order_choices (S f) (VGrid g) h).1).
Proof.
  pose proof (solved_store (VGrid g) h) as Hh.
  destruct (solved (VGrid g) h) as [r h0] eqn:E. simpl in Hh. subst h0.
  split.
  - intros Hr. simpl in Hr. subst r. rewrite solve_sudoku_unfold.
    by rewrite (bind_Ret _ _ _ _ _ E).
  - intros c h1 trials h2 Hr Hc Ht. simpl in Hr. subst r.
    rewrite solve_sudoku_unfold.
    rewrite (bind_Ret _ _ _ _ _ E). cbv beta iota.
    rewrite (bind_Ret _ _ _ _ _ Hc), (bind_Ret _ _ _ _ _ Ht).
    split.
    + apply try_choices_fail.
    + intros g'. apply try_choices_grid.
Qed.

Lemma solve_sudoku_search_witness :
  solve_sudoku most_constrained ascending_order 1 (VGrid ex_solved_grid)
    ex_solved_heap = (Ret (VGrid ex_solved_grid), ex_solved_heap) ∧
  first_success
    (λ choice,
       let! new_grid := assign 10 (VGrid ex_grid) (1, 2) choice in
       solve_sudoku most_constrained ascending_order 10 new_grid)
    [1; 2] ex_heap
    (solve_sudoku most_constrained ascending_order 11 (VGrid ex_grid)
       ex_heap).1.
Proof.
  split.
  - refine (proj1 (solve_sudoku_search most_constrained ascending_order 0
                     ex_solved_grid ex_solved_heap) _).
    vm_compute. reflexivity.
  - refine (proj2 (solve_sudoku_search most_constrained ascending_order 10
                     ex_grid ex_heap) (1, 2) ex_heap [1; 2] ex_heap _ _ _).
    + vm_compute. reflexivity.
    + vm_compute. reflexivity.
    + vm_compute. reflexivity.
Defined.

(** C7. Monotonicity: along any sequence of successful [assign] and
    [eliminate] calls, each made on the grid the previous one returned,
    the final grid has the cells of the first one and the candidate set of
    every cell is a subset of the set the cell had at the start. *)
Theorem candidates_only_shrink h g d h' g' :
  h !! cells g = Some d →
  rtc step (h, g) (h', g') →
  ∃ d', h' !! cells g' = Some d' ∧
        ∀ k, match dict_get d' k, dict_get d k with
             | Some s', Some s => s' ⊆ s
             | None, None => True
             | _, _ => False
             end.
Proof.
  intros Hd Hrtc.
  destruct (lineage_post _ _ Hrtc d Hd) as (d' & Hd' & Hle & _).
  exists d'. split; [done|]. intros k. by apply dict_le_get.
Qed.

Lemma candidates_only_shrink_witness :
  ∃ d', ex_heap' !! cells (copy_of ex_grid ex_heap) = Some d' ∧
        ∀ k, match dict_get d' k,
                   dict_get ex_cells k with
             | Some s', Some s => s' ⊆ s
             | None, None => True
             | _, _ => False
             end.
Proof.
  apply (candidates_only_shrink ex_heap ex_grid ex_cells ex_heap'
           (copy_of ex_grid ex_heap)).
  - reflexivity.
  - apply rtc_once, (step_assign 10 (1, 1) 1). vm_compute. reflexivity.
Defined.

(** C8. Idempotence of [eliminate]: running [eliminate(grid, cell, digit)]
    on the outcome of [eliminate(grid, cell, digit)] gives the outcome of
    the first call, in value and in store; and when [digit] is not a
    candidate of [cell] the call returns the grid it was given, with the
    store as it was. *)
Theorem eliminate_idempotent f v c x h :
  (let! v' := eliminate f v c x in eliminate f v' c x) h = eliminate f v c x h
  ∧ ∀ g d s, v = VGrid g → h !! cells g = Some d → dict_get d c = Some s →
             x ∉ s → eliminate (S f) v c x h = (Ret v, h).
Proof.
  split.
  - destruct f as [|f]; [done|]. destruct v as [|g]; [done|].
    unfold bind. destruct (h !! cells g) as [d|] eqn:Hd.
    2:{ simpl. unfold bind, cells_get, bind, as_obj, deref, ret. simpl.
        by rewrite Hd. }
    pose proof (eliminate_post (S f) g c x h d Hd) as Hpost.
    destruct (eliminate (S f) (VGrid g) c x h) as [[v'|e|] h'] eqn:E; [|done..].
    destruct Hpost as (_ & _ & _ & Hcases & _). simpl in Hcases.
    destruct Hcases as [Hv|[Hv|[Hv|Hv]]]; try done; injection Hv as ->; [|done].
    destruct (eliminate_ret_grid _ _ _ _ _ _ _ _ Hd E)
      as (_ & d' & s' & Hd' & _ & Hc' & Hx').
    rewrite (eliminate_unfold _ _ _ _ _ _ Hd'), Hc'. by rewrite decide_True.
  - intros g d s -> Hd Hc Hx.
    rewrite (eliminate_unfold _ _ _ _ _ _ Hd), Hc. by rewrite decide_True.
Qed.

Lemma eliminate_idempotent_witness :
  eliminate 1 (VGrid ex_grid) (1, 2) 3 ex_heap = (Ret (VGrid ex_grid), ex_heap).
Proof.
  refine (proj2 (eliminate_idempotent 0 (VGrid ex_grid) (1, 2) 3 ex_heap)
            ex_grid ex_cells {[1; 2]} _ _ _ _).
  - reflexivity.
  - reflexivity.
  - reflexivity.
  - vm_compute. intros H. discriminate H.
Defined.

(** C9. Selection filtering: on a grid with a cell that has more than one
    candidate, [most_constrained] returns a cell of the grid with more
    than one candidate and with the fewest candidates among such cells,
    and [least_constrained] one with the most; on a solved grid both raise
    [ValueError]. *)
Theorem selection_filtering g h d :
  h !! cells g = Some d →
  (∀ k, (1 < size (dict_at d k))%nat →
     (∃ c, most_constrained (VGrid g) h = (Ret c, h) ∧
           c ∈ dict_keys d ∧ (1 < size (dict_at d c))%nat ∧
           ∀ k', (1 < size (dict_at d k'))%nat →
                 (size (dict_at d c) ≤ size (dict_at d k'))%nat) ∧
     (∃ c, least_constrained (VGrid g) h = (Ret c, h) ∧
           c ∈ dict_keys d ∧ (1 < size (dict_at d c))%nat ∧
           ∀ k', (1 < size (dict_at d k'))%nat →
                 (size (dict_at d k') ≤ size (dict_at d c))%nat)) ∧
  ((solved (VGrid g) h).1 = Ret true →
     most_constrained (VGrid g) h = (Raise ValueError, h) ∧
     least_constrained (VGrid g) h = (Raise ValueError, h)).
Proof.
  intros Hd. split.
  - intros k Hk. split.
    + unfold most_constrained, bind at 1, field0, deref. rewrite Hd.
      apply (select_spec py_min Nat.min le d h k); try done; lia.
    + unfold least_constrained, bind at 1, field0, deref. rewrite Hd.
      apply (select_spec py_max Nat.max (λ a b, b ≤ a)%nat d h k);
        try done; lia.
  - intros Hs. apply (solved_unassigned _ _ _ Hd) in Hs.
    unfold most_constrained, least_constrained, bind, field0, deref.
    rewrite Hd. fold (unassigned d). by rewrite Hs.
Qed.

Lemma selection_filtering_witness :
  ((∃ c, most_constrained (VGrid ex_grid) ex_heap = (Ret c, ex_heap) ∧
         c ∈ dict_keys ex_cells ∧ (1 < size (dict_at ex_cells c))%nat ∧
         ∀ k', (1 < size (dict_at ex_cells k'))%nat →
               (size (dict_at ex_cells c) ≤ size (dict_at ex_cells k'))%nat) ∧
   (∃ c, least_constrained (VGrid ex_grid) ex_heap = (Ret c, ex_heap) ∧
         c ∈ dict_keys ex_cells ∧ (1 < size (dict_at ex_cells c))%nat ∧
         ∀ k', (1 < size (dict_at ex_cells k'))%nat →
               (size (dict_at ex_cells k') ≤ size (dict_at ex_cells c))%nat)) ∧
  (most_constrained (VGrid ex_solved_grid) ex_solved_heap
     = (Raise ValueError, ex_solved_heap) ∧
   least_constrained (VGrid ex_solved_grid) ex_solved_heap
     = (Raise ValueError, ex_solved_heap)).
Proof.
  split.
  - refine (proj1 (selection_filtering ex_grid ex_heap ex_cells _) (1, 1) _).
    + reflexivity.
    + vm_compute. lia.
  - refine (proj2 (selection_filtering ex_solved_grid ex_solved_heap
                     ex_solved_cells _) _).
    + reflexivity.
    + vm_compute. reflexivity.
Defined.

(** C10. Assigning to a cell the digit it is already forced to succeeds:
    [assign] returns a grid (the copy) whose dictionary is the one of the
    grid passed in, with the same peers and block size. *)
Theorem assign_forced_digit f g c x h d :
  h !! cells g = Some d →
  dict_get d c = Some {[x]} →
  ∃ g' h', assign f (VGrid g) c x h = (Ret (VGrid g'), h') ∧
           h' !! cells g' = Some d ∧ peers g' = peers g ∧ n g' = n g.
Proof.
  intros Hd Hc. exists (copy_of g h), (h ++ [d]).
  rewrite (assign_unfold _ _ _ _ _ _ Hd), Hc.
  rewrite difference_diag_L, elements_empty. simpl.
  split_and!; [done | by apply list_lookup_middle | done | done].
Qed.

Lemma assign_forced_digit_witness :
  ∃ g' h', assign 0 (VGrid ex_solved_grid) (1, 2) 2
             ex_solved_heap = (Ret (VGrid g'), h') ∧
           h' !! cells g' = Some ex_solved_cells ∧
           peers g' = peers ex_grid ∧ n g' = 2.
Proof.
  apply (assign_forced_digit 0 ex_solved_grid (1, 2) 2
           ex_solved_heap ex_solved_cells).
  - reflexivity.
  - reflexivity.
Defined.

(** * Further properties of the code *)

(** ** Successful calls of [eliminate], case by case *)

Lemma for_each_ext {A S} (body1 body2 : S → A → M S) xs :
  (∀ s a h, body1 s a h = body2 s a h) →
  ∀ s h, for_each xs s body1 h = for_each xs s body2 h.
Proof.
  intros Hb. induction xs as [|a xs IH]; intros s h; simpl; [done|].
  unfold bind. rewrite Hb. destruct (body2 s a h) as [[s'|e|] h1]; auto.
Qed.

Lemma singleton_of_size_1 (s : gset Z) :
  size s = 1%nat → ∃ y, s = {[y]} ∧ elements s = [y].
Proof.
  intros Hs. destruct (size_1_elem_of s Hs) as [y Hy].
  apply leibniz_equiv in Hy. exists y. split; [done|].
  rewrite Hy. apply elements_singleton.
Qed.

(** A call of [eliminate] that returns a grid did one of three things:
    nothing, one removal, or one removal that left a single digit [y],
    followed by the elimination of [y] from every peer. *)
Lemma eliminate_success f g c x h d g' h' :
  h !! cells g = Some d →
  eliminate (S f) (VGrid g) c x h = (Ret (VGrid g'), h') →
  g' = g ∧
  ∃ s, dict_get d c = Some s ∧
       (((x ∉ s) ∧ h' = h) ∨
        (x ∈ s ∧ (2 ≤ size (s ∖ {[x]}))%nat ∧
         h' = <[cells g := dict_set d c (s ∖ {[x]})]> h) ∨
        (x ∈ s ∧
         (∃ y ps,
            s ∖ {[x]} = {[y]} ∧ dict_get (peers g) c = Some ps ∧
            for_each (elements ps) (VGrid g)
              (λ grid p, eliminate f grid p y)
              (<[cells g := dict_set d c (s ∖ {[x]})]> h)
              = (Ret (VGrid g'), h')))).
Proof.
  intros Hd E.
  destruct (eliminate_ret_grid _ _ _ _ _ _ _ _ Hd E) as [-> _].
  split; [done|]. rewrite (eliminate_unfold _ _ _ _ _ _ Hd) in E.
  destruct (dict_get d c) as [s|]; [|done]. exists s. split; [done|].
  destruct (decide (x ∉ s)) as [Hx|Hx].
  { injection E as <-. auto. }
  apply dec_stable in Hx. right. cbv zeta in E.
  destruct (decide (size (s ∖ {[x]}) = 0%nat)) as [H0|H0]; [done|].
  destruct (decide (size (s ∖ {[x]}) = 1%nat)) as [H1|H1].
  2:{ injection E as <-. left. split_and!; [done | lia | done]. }
  right. split; [done|].
  destruct (dict_get (peers g) c) as [ps|]; [|done].
  destruct (singleton_of_size_1 _ H1) as (y & Hy & Hel).
  exists y, ps. split_and!; [done..|].
  rewrite <- E. apply for_each_ext. intros v p h0.
  unfold bind, first_of. by rewrite Hel.
Qed.

(** After a loop of eliminations has returned a grid, none of the digits
    it went through is a candidate of the cell it was eliminated from. *)
Lemma eliminate_loop_absent {A} f g (kc : A → cell) (kx : A → Z) :
  ∀ xs h d g' h',
    h !! cells g = Some d →
    for_each xs (VGrid g) (λ grid a, eliminate f grid (kc a) (kx a)) h
      = (Ret (VGrid g'), h') →
    g' = g ∧
    ∃ d', h' !! cells g = Some d' ∧ dict_le d' d ∧
          (nonempty_cells d = true → nonempty_cells d' = true) ∧
          ∀ a s', a ∈ xs → dict_get d' (kc a) = Some s' → kx a ∉ s'.
Proof.
  induction xs as [|a xs IH]; intros h d g' h' Hd; simpl.
  { intros [= <- <-]. split; [done|]. exists d.
    split_and!; [done | apply dict_le_refl | done |].
    intros y s' Hy. by apply elem_of_nil in Hy. }
  unfold bind.
  pose proof (eliminate_post f g (kc a) (kx a) h d Hd) as Hpost.
  destruct (eliminate f (VGrid g) (kc a) (kx a) h) as [[v1|e|] h1] eqn:E;
    [|done..].
  destruct v1 as [|g1].
  - intros Hloop.
    destruct (for_each_False f kc kx xs h1) as [Hr _].
    simpl in Hr. rewrite Hloop in Hr. simpl in Hr. by destruct Hr.
  - destruct (elim_post_ret _ _ _ _ _ _ Hd Hpost)
      as (-> & da & _ & Hda & Hlea & Hnea).
    destruct (eliminate_ret_grid _ _ _ _ _ _ _ _ Hd E)
      as (_ & da' & sa & Hda' & _ & Hca & Hxa).
    rewrite Hda in Hda'. injection Hda' as <-.
    intros Hloop.
    destruct (IH h1 da g' h' Hda Hloop) as (-> & d' & Hd' & Hle' & Hne' & Habs).
    split; [done|]. exists d'.
    split_and!; [done | by eapply dict_le_trans | auto |].
    intros b s' Hb Hs'. apply elem_of_cons in Hb as [->|Hb]; [|eauto].
    destruct (dict_le_get_Some_inv d' da (kc a) s' Hle' Hs')
      as (s0 & Hs0 & Hsub).
    rewrite Hca in Hs0. injection Hs0 as <-.
    intros Hin. by apply Hxa, Hsub.
Qed.

Lemma subset_of_singleton (s' s : gset Z) :
  s' ⊆ s → s' ≠ ∅ → size s = 1%nat → s' = s.
Proof.
  intros Hsub Hne Hs. destruct (singleton_of_size_1 s Hs) as (y & -> & _).
  apply leibniz_equiv. apply set_equiv. intros z. split; [apply Hsub|].
  intros ->%elem_of_singleton.
  destruct (set_choose_L s' Hne) as [z Hz].
  pose proof (Hsub z Hz) as ->%elem_of_singleton. done.
Qed.

(** What a successful [eliminate] leaves in the cell. *)
Lemma eliminate_ret_exact f g c x h d s g' h' :
  h !! cells g = Some d →
  nonempty_cells d = true →
  dict_get d c = Some s →
  eliminate f (VGrid g) c x h = (Ret (VGrid g'), h') →
  ∃ d', h' !! cells g' = Some d' ∧ dict_get d' c = Some (s ∖ {[x]}).
Proof.
  intros Hd Hne Hc E. destruct f as [|f]; [done|].
  assert (cells g < length h)%nat as Hlen by (by eapply lookup_lt_Some).
  destruct (eliminate_success _ _ _ _ _ _ _ _ Hd E) as (-> & s0 & Hc0 & Hcase).
  rewrite Hc in Hc0. injection Hc0 as <-.
  set (d1 := dict_set d c (s ∖ {[x]})) in *.
  assert (dict_get d1 c = Some (s ∖ {[x]})) as Hc1 by apply dict_get_set_eq.
  destruct Hcase as [[Hx ->]|[(Hx & Hsz & ->)|(Hx & y & ps & Hy & Hps & Hloop)]].
  - exists d. split; [done|]. rewrite Hc. f_equal.
    apply leibniz_equiv. apply set_equiv. intros z.
    rewrite elem_of_difference, elem_of_singleton.
    split; [intros Hz; split; [done | by intros ->] | by intros [? _]].
  - exists d1. split; [by apply list_lookup_insert_eq | done].
  - assert (<[cells g := d1]> h !! cells g = Some d1) as Hd1
      by (by apply list_lookup_insert_eq).
    destruct (eliminate_loop_absent f g id (λ _, y) _ _ _ _ _ Hd1 Hloop)
      as (_ & d' & Hd' & Hle & Hne' & _).
    exists d'. split; [done|].
    destruct (dict_le_get_Some d' d1 c _ Hle Hc1) as (s' & Hs' & Hsub).
    rewrite Hs'. f_equal. apply subset_of_singleton; [done| |].
    + apply (nonempty_cells_get d' c); [|done]. apply Hne'.
      apply nonempty_cells_set; [by eexists | | done].
      rewrite Hy. intros Hem.
      by apply (not_elem_of_empty (C:=gset Z) y); rewrite <- Hem;
        apply elem_of_singleton.
    + rewrite Hy. apply size_singleton.
Qed.

(** What a successful [assign] leaves in the cell. *)
Lemma assign_ret_exact f g c x h d g' h' :
  h !! cells g = Some d →
  nonempty_cells d = true →
  assign f (VGrid g) c x h = (Ret (VGrid g'), h') →
  g' = copy_of g h ∧
  ∃ d' s, h' !! cells g' = Some d' ∧ dict_le d' d ∧
          nonempty_cells d' = true ∧
          dict_get d c = Some s ∧ x ∈ s ∧ dict_get d' c = Some {[x]}.
Proof.
  intros Hd Hne E. rewrite (assign_unfold _ _ _ _ _ _ Hd) in E.
  destruct (dict_get d c) as [s|] eqn:Hc; [|done].
  destruct (eliminate_loop_absent f (copy_of g h) (λ _, c) id _ _ _ _ _
              (copy_of_lookup g h d) E)
    as (-> & d' & Hd' & Hle & Hne' & Habs).
  split; [done|]. exists d', s.
  destruct (dict_le_get_Some d' d c s Hle Hc) as (s' & Hs' & Hsub).
  pose proof (nonempty_cells_get d' c s' (Hne' Hne) Hs') as Hs'ne.
  assert (∀ z, z ∈ s' → z = x) as Hall.
  { intros z Hz. destruct (decide (z = x)) as [|Hzx]; [done|]. exfalso.
    apply (Habs z s'); [|done..].
    apply elem_of_elements, elem_of_difference.
    split; [by apply Hsub | by intros ?%elem_of_singleton]. }
  destruct (set_choose_L s' Hs'ne) as [z Hz].
  pose proof (Hall z Hz) as ->.
  split_and!; [done | done | auto | done | by apply Hsub |].
  rewrite Hs'. f_equal. apply leibniz_equiv, set_equiv. intros z.
  rewrite elem_of_singleton. split; [apply Hall | by intros ->].
Qed.

(** ** Decided cells and their peers *)

Lemma forced_excluded_spec ps d :
  forced_excluded ps d = true ↔ ∀ k, excluded_at ps d k.
Proof.
  unfold forced_excluded. rewrite forallb_forall. split.
  - intros Hall k s pk p sp Hk Hs Hpk Hp Hsp.
    pose proof (dict_get_Some_keys _ _ _ Hk) as Hin.
    apply list_elem_of_In, Hall in Hin. rewrite Hk, Hpk in Hin.
    rewrite decide_True in Hin by done. rewrite forallb_forall in Hin.
    apply elem_of_elements, list_elem_of_In, Hin in Hp.
    rewrite Hsp in Hp. by apply bool_decide_eq_true in Hp.
  - intros Hall k Hin.
    destruct (dict_get d k) as [s|] eqn:Hk; [|done].
    destruct (dict_get ps k) as [pk|] eqn:Hpk; [|done].
    destruct (decide (size s = 1%nat)) as [Hs|]; [|done].
    apply forallb_forall. intros p Hp.
    destruct (dict_get d p) as [sp|] eqn:Hsp; [|done].
    apply bool_decide_eq_true. apply (Hall k s pk p sp); try done.
    by apply elem_of_elements, list_elem_of_In.
Qed.

(** A cell that was in order stays in order when candidate sets shrink,
    unless it has just been left with a single digit. *)
Lemma excluded_at_le ps d' d k :
  excluded_at ps d k →
  dict_le d' d →
  (∀ s s', dict_get d k = Some s → dict_get d' k = Some s' →
           size s' = 1%nat → size s = 1%nat) →
  excluded_at ps d' k.
Proof.
  intros Hgood Hle Hsize s' pk p sp' Hk' Hs' Hpk Hp Hsp'.
  destruct (dict_le_get_Some_inv d' d k s' Hle Hk') as (s & Hk & Hsub).
  destruct (dict_le_get_Some_inv d' d p sp' Hle Hsp') as (sp & Hsp & Hsubp).
  pose proof (Hsize s s' Hk Hk' Hs') as Hs.
  pose proof (Hgood s pk p sp Hk Hs Hpk Hp Hsp) as Hdisj.
  intros z Hz Hzp. apply (Hdisj z); [by apply Hsub | by apply Hsubp].
Qed.

(** A loop of eliminations that returns a grid: any relation between
    dictionaries that each call respects holds across the loop. *)
Lemma eliminate_loop_rel {A} f g
    (Q : dict cell (gset Z) → dict cell (gset Z) → Prop)
    (kc : A → cell) (kx : A → Z) :
  (∀ d, Q d d) →
  (∀ d1 d2 d3, Q d1 d2 → Q d2 d3 → Q d1 d3) →
  (∀ c x h d g' h',
     h !! cells g = Some d →
     eliminate f (VGrid g) c x h = (Ret (VGrid g'), h') →
     ∃ d', h' !! cells g = Some d' ∧ Q d d') →
  ∀ xs h d g' h',
    h !! cells g = Some d →
    for_each xs (VGrid g) (λ grid a, eliminate f grid (kc a) (kx a)) h
      = (Ret (VGrid g'), h') →
    ∃ d', h' !! cells g = Some d' ∧ Q d d'.
Proof.
  intros Hrefl Htrans Hcall.
  induction xs as [|a xs IH]; intros h d g' h' Hd; simpl.
  { intros [= <- <-]. by exists d. }
  unfold bind.
  destruct (eliminate f (VGrid g) (kc a) (kx a) h) as [[v1|e|] h1] eqn:E;
    [|done..].
  destruct v1 as [|g1].
  - intros Hloop.
    destruct (for_each_False f kc kx xs h1) as [Hr _].
    simpl in Hr. rewrite Hloop in Hr. simpl in Hr. by destruct Hr.
  - pose proof (eliminate_ret_grid _ _ _ _ _ _ _ _ Hd E) as [-> _].
    destruct (Hcall _ _ _ _ _ _ Hd E) as (d1 & Hd1 & HQ1).
    intros Hloop. destruct (IH _ _ _ _ Hd1 Hloop) as (d' & Hd' & HQ').
    exists d'. split; [done | by eapply Htrans].
Qed.

(** [eliminate] keeps in order every cell that was. *)
Lemma eliminate_excluded f : ∀ g c x h d g' h',
  h !! cells g = Some d →
  eliminate f (VGrid g) c x h = (Ret (VGrid g'), h') →
  ∃ d', h' !! cells g = Some d' ∧
        ∀ k, excluded_at (peers g) d k → excluded_at (peers g) d' k.
Proof.
  induction f as [|f IH]; intros g c x h d g' h' Hd E; [done|].
  assert (cells g < length h)%nat as Hlen by (by eapply lookup_lt_Some).
  destruct (eliminate_success _ _ _ _ _ _ _ _ Hd E) as (-> & s & Hc & Hcase).
  set (d1 := dict_set d c (s ∖ {[x]})) in *.
  assert (dict_get d1 c = Some (s ∖ {[x]})) as Hc1 by apply dict_get_set_eq.
  assert (dict_le d1 d) as Hle1.
  { apply (dict_set_le _ _ s); [done|]. apply subseteq_difference_l. done. }
  assert (∀ k, k ≠ c → excluded_at (peers g) d k →
               excluded_at (peers g) d1 k) as Hother.
  { intros k Hk Hgood. apply (excluded_at_le _ _ d); [done..|].
    intros s0 s0' Hs0 Hs0'. unfold d1 in Hs0'.
    rewrite dict_get_set_ne in Hs0' by done. congruence. }
  destruct Hcase as [[Hx ->]|[(Hx & Hsz & ->)|(Hx & y & ps & Hy & Hps & Hloop)]].
  - by exists d.
  - exists d1. split; [by apply list_lookup_insert_eq|].
    intros k Hgood. destruct (decide (k = c)) as [->|Hk]; [|auto].
    intros s0 pk p sp Hs0 Hsize. rewrite Hc1 in Hs0. injection Hs0 as <-. lia.
  - assert (<[cells g := d1]> h !! cells g = Some d1) as Hd1
      by (by apply list_lookup_insert_eq).
    destruct (eliminate_loop_absent f g id (λ _, y) _ _ _ _ _ Hd1 Hloop)
      as (_ & d' & Hd' & Hle & _ & Habs).
    destruct (eliminate_loop_rel f g
                (λ da db, ∀ k, excluded_at (peers g) da k →
                               excluded_at (peers g) db k)
                id (λ _, y) (λ _ _ H, H)
                (λ _ _ _ H1 H2 k Hk, H2 k (H1 k Hk))
                (λ c0 x0 h0 d0 g0 h0', IH g c0 x0 h0 d0 g0 h0')
                _ _ _ _ _ Hd1 Hloop)
      as (d'' & Hd'' & Hkeep).
    rewrite Hd' in Hd''. injection Hd'' as <-.
    exists d'. split; [done|].
    intros k Hgood. destruct (decide (k = c)) as [->|Hk]; [|auto].
    intros s' pk p sp Hs' Hsize Hpk Hp Hsp.
    rewrite Hps in Hpk. injection Hpk as <-.
    destruct (dict_le_get_Some_inv d' d1 c s' Hle Hs') as (s1 & Hs1 & Hsub).
    rewrite Hc1, Hy in Hs1. injection Hs1 as <-.
    intros z Hz Hzp. apply Hsub, elem_of_singleton in Hz as ->.
    apply (Habs p sp); [by apply elem_of_elements | done | done].
Qed.

(** [assign] and [eliminate] keep the grid in order. *)
Lemma step_excluded h g h' g' d :
  step (h, g) (h', g') →
  h !! cells g = Some d →
  forced_excluded (peers g) d = true →
  ∃ d', h' !! cells g' = Some d' ∧ forced_excluded (peers g') d' = true.
Proof.
  intros Hstep Hd Hex. rewrite forced_excluded_spec in Hex.
  inversion Hstep as [f c x ? ? ? ? E|f c x ? ? ? ? E]; subst.
  - pose proof (eliminate_ret_grid _ _ _ _ _ _ _ _ Hd E) as [-> _].
    destruct (eliminate_excluded _ _ _ _ _ _ _ _ Hd E) as (d' & Hd' & Hkeep).
    exists d'. split; [done|]. apply forced_excluded_spec. auto.
  - rewrite (assign_unfold _ _ _ _ _ _ Hd) in E.
    destruct (dict_get d c) as [s|] eqn:Hc; [|done].
    pose proof (copy_of_lookup g h d) as Hd0.
    destruct (eliminate_loop_absent f (copy_of g h) (λ _, c) id _ _ _ _ _
                Hd0 E) as (-> & _).
    destruct (eliminate_loop_rel f (copy_of g h)
                (λ da db, ∀ k, excluded_at (peers g) da k →
                               excluded_at (peers g) db k)
                (λ _, c) id (λ _ _ H, H)
                (λ _ _ _ H1 H2 k Hk, H2 k (H1 k Hk))
                (λ c0 x0 h0 d0 g0 h0',
                   eliminate_excluded f (copy_of g h) c0 x0 h0 d0 g0 h0')
                _ _ _ _ _ Hd0 E)
      as (d' & Hd' & Hkeep).
    exists d'. split; [done|]. apply forced_excluded_spec. auto.
Qed.

Lemma elem_of_coords side r c :
  (r, c) ∈ coords side ↔ (1 ≤ r ≤ side ∧ 1 ≤ c ≤ side).
Proof.
  unfold coords. rewrite list_elem_of_bind. split.
  - intros (r' & Hin & Hr). apply list_elem_of_bind in Hin as (c' & Hin & Hc).
    apply list_elem_of_singleton in Hin. injection Hin as -> ->.
    apply elem_of_seqZ in Hr, Hc. lia.
  - intros [Hr Hc]. exists r. split; [|apply elem_of_seqZ; lia].
    apply list_elem_of_bind. exists c. split; [|apply elem_of_seqZ; lia].
    by apply list_elem_of_singleton.
Qed.

(** The empty grid is in order: with a block size of 2 or more no cell
    is decided, and the only cell of the 1×1 grid has no peer. *)
Lemma empty_grid_excluded (bs : Z) (h : heap) g h' :
  empty_grid bs h = (Ret (VGrid g), h') →
  ∃ d, h' !! cells g = Some d ∧ forced_excluded (peers g) d = true.
Proof.
  unfold empty_grid. destruct (decide (bs < 1)) as [|Hbs]; [done|].
  intros [= <- <-]. eexists. split; [by apply list_lookup_middle|].
  apply forced_excluded_spec. simpl.
  intros [r c] s pk [r' c'] sp Hk Hs Hpk Hp Hsp.
  pose proof (dict_get_Some_keys _ _ _ Hk) as Hin.
  rewrite dict_keys_tabulate in Hin.
  rewrite (dict_get_tabulate (λ _, list_to_set (seqZ 1 (bs * bs))) _ _ Hin)
    in Hk. injection Hk as <-.
  rewrite size_list_to_set, length_seqZ in Hs by apply NoDup_seqZ.
  assert (bs * bs = 1) as Hone by lia.
  rewrite (dict_get_tabulate
             (λ c, list_to_set (filter (λ c', is_peer bs c c')
                                  (coords (bs * bs)))) _ _ Hin) in Hpk.
  injection Hpk as <-.
  apply elem_of_list_to_set, list_elem_of_filter in Hp as [Hpeer Hin'].
  rewrite Hone in Hin, Hin'. apply elem_of_coords in Hin, Hin'.
  unfold is_peer in Hpeer. apply Is_true_true, andb_prop in Hpeer as [Hne _].
  apply bool_decide_eq_true in Hne. exfalso. apply Hne. f_equal; lia.
Qed.

(** ** What the search returns *)

Lemma bind_inv {A B} (m : M A) (k : A → M B) h b h' :
  bind m k h = (Ret b, h') →
  ∃ a h1, m h = (Ret a, h1) ∧ k a h1 = (Ret b, h').
Proof.
  unfold bind. destruct (m h) as [[a|e|] h1]; [|done..]. intros Hk.
  by exists a, h1.
Qed.

Lemma bind_extends {A B} (m : M A) (k : A → M B) h :
  (∀ h, h `prefix_of` (m h).2) →
  (∀ a h, h `prefix_of` (k a h).2) →
  h `prefix_of` (bind m k h).2.
Proof.
  intros Hm Hk. unfold bind. pose proof (Hm h) as H1.
  destruct (m h) as [[a|e|] h1]; simpl in H1; [|done..].
  etrans; [done | apply Hk].
Qed.

Lemma try_choices_cons trial v vs h :
  try_choices trial (v :: vs) h =
    match trial v h with
    | (Ret outcome, h1) =>
        if negb (is_False outcome) then (Ret outcome, h1)
        else try_choices trial vs h1
    | (Raise e, h1) => (Raise e, h1)
    | (OutOfFuel, h1) => (OutOfFuel, h1)
    end.
Proof.
  simpl. unfold bind. destruct (trial v h) as [[o|e|] h1]; [|done..].
  by destruct (negb (is_False o)).
Qed.

(** A grid that the search returns has passed the test [solved]. *)
Lemma solve_sudoku_ret_solved next_cell order_choices f : ∀ v h g' h',
  solve_sudoku next_cell order_choices f v h = (Ret (VGrid g'), h') →
  solved (VGrid g') h' = (Ret true, h').
Proof.
  induction f as [|f IH]; intros v h g' h'; [done|].
  destruct v as [|g]; [done|]. rewrite solve_sudoku_unfold.
  intros (done & h0 & Hs & E)%bind_inv.
  pose proof (solved_store (VGrid g) h) as Hh. rewrite Hs in Hh.
  simpl in Hh. subst h0. destruct done.
  { injection E as <- <-. done. }
  apply bind_inv in E as (c & h1 & _ & E).
  apply bind_inv in E as (vs & h2 & _ & E).
  revert h2 E. induction vs as [|x vs IHvs]; intros h2; [done|].
  rewrite try_choices_cons.
  destruct (bind _ _ h2) as [[o|e|] h3] eqn:Et; [|done..].
  destruct o as [|g1]; simpl; [apply IHvs|].
  intros [= <- <-]. apply bind_inv in Et as (v1 & h4 & _ & Et).
  by apply IH in Et.
Qed.

Lemma step_same_topology h g h' g' d :
  step (h, g) (h', g') →
  h !! cells g = Some d →
  peers g' = peers g ∧ n g' = n g.
Proof.
  intros Hstep Hd.
  inversion Hstep as [f c x ? ? ? ? E|f c x ? ? ? ? E]; subst.
  - by destruct (eliminate_ret_grid _ _ _ _ _ _ _ _ Hd E) as [-> _].
  - rewrite (assign_unfold _ _ _ _ _ _ Hd) in E.
    destruct (dict_get d c) as [s|] eqn:Hc; [|done].
    by destruct (eliminate_loop_absent f (copy_of g h) (λ _, c) id _ _ _ _ _
                   (copy_of_lookup g h d) E) as (-> & _).
Qed.

(** With strategies that leave the existing dictionaries alone, a grid
    that the search returns descends from the grid it was given: same
    topology, smaller candidate sets, and still in order if it was. *)
Lemma solve_sudoku_post next_cell order_choices :
  (∀ v h, h `prefix_of` (next_cell v h).2) →
  (∀ v c h, h `prefix_of` (order_choices v c h).2) →
  ∀ f g h d g' h',
    h !! cells g = Some d →
    solve_sudoku next_cell order_choices f (VGrid g) h
      = (Ret (VGrid g'), h') →
    ∃ d', h' !! cells g' = Some d' ∧ peers g' = peers g ∧ n g' = n g ∧
          dict_le d' d ∧
          (nonempty_cells d = true → nonempty_cells d' = true) ∧
          (forced_excluded (peers g) d = true →
           forced_excluded (peers g) d' = true).
Proof.
  intros Hnc Hoc. induction f as [|f IH]; intros g h d g' h' Hd; [done|].
  rewrite solve_sudoku_unfold.
  intros (done & h0 & Hs & E)%bind_inv.
  pose proof (solved_store (VGrid g) h) as Hh. rewrite Hs in Hh.
  simpl in Hh. subst h0. destruct done.
  { injection E as <- <-. exists d.
    split_and!; [done | done | done | apply dict_le_refl | done | done]. }
  apply bind_inv in E as (c & h1 & Hc & E).
  apply bind_inv in E as (vs & h2 & Hvs & E).
  assert (h2 !! cells g = Some d) as Hd2.
  { pose proof (Hnc (VGrid g) h) as [k1 H1]. rewrite Hc in H1. simpl in H1.
    pose proof (Hoc (VGrid g) c h1) as [k2 H2]. rewrite Hvs in H2.
    simpl in H2. subst. by do 2 apply lookup_app_l_Some. }
  clear Hs Hc Hvs Hd. revert h2 Hd2 E.
  induction vs as [|x vs IHvs]; intros h2 Hd2; [done|].
  rewrite try_choices_cons.
  assert (h2 `prefix_of`
            (bind (assign f (VGrid g) c x)
               (solve_sudoku next_cell order_choices f) h2).2) as Hpre.
  { apply bind_extends; [apply assign_extends|].
    intros a h3. by apply solve_sudoku_extends. }
  destruct (bind _ _ h2) as [[o|e|] h3] eqn:Et; [|done..].
  simpl in Hpre. destruct o as [|g2]; simpl.
  { apply IHvs. destruct Hpre as [k ->]. by apply lookup_app_l_Some. }
  intros [= <- <-]. apply bind_inv in Et as (v1 & h4 & Ha & Et).
  destruct v1 as [|g1]; [by destruct f|].
  assert (step (h2, g) (h4, g1)) as Hstep by (by eapply step_assign).
  destruct (step_post _ _ _ _ _ Hstep Hd2) as (d1 & Hd1 & Hle1 & Hne1).
  destruct (step_same_topology _ _ _ _ _ Hstep Hd2) as [Hp1 Hn1].
  destruct (IH g1 h4 d1 g2 h3 Hd1 Et)
    as (d' & Hd' & Hp' & Hn' & Hle' & Hne' & Hex').
  exists d'. rewrite Hp1 in *.
  split_and!; [done | congruence | congruence | by eapply dict_le_trans
              | auto |].
  intros Hex. apply Hex'.
  destruct (step_excluded _ _ _ _ _ Hstep Hd2 Hex) as (d1' & Hd1' & Hex1).
  rewrite Hd1 in Hd1'. injection Hd1' as <-. by rewrite Hp1 in Hex1.
Qed.

(** ** The search comes to an end *)

Lemma dict_le_total_lt d' d c s s' :
  dict_le d' d →
  dict_get d c = Some s → dict_get d' c = Some s' →
  (size s' < size s)%nat →
  (total d' < total d)%nat.
Proof.
  unfold total, dict_values.
  induction 1 as [|[k1 s1] [k2 s2] d' d [Hk Hs] Hrest IH]; csimpl in *; [done|].
  subst k2. apply subseteq_size in Hs.
  destruct (decide (k1 = c)) as [->|Hne]; csimpl.
  - intros [= ->] [= ->] Hlt.
    pose proof (dict_le_total d' d Hrest) as Hle.
    unfold total, dict_values in Hle. lia.
  - intros H1 H2 Hlt. specialize (IH H1 H2 Hlt). lia.
Qed.

Lemma least_constrained_store v h : (least_constrained v h).2 = h.
Proof.
  unfold least_constrained, bind.
  pose proof (field0_store v h) as Hh.
  destruct (field0 v h) as [[d|e|] h0]; simpl in Hh; subst; [|done..].
  unfold py_max, py_index, py_nth, ret, raise.
  repeat case_match; by simplify_eq.
Qed.

Lemma descending_order_store v c h : (descending_order v c h).2 = h.
Proof.
  unfold descending_order, bind.
  pose proof (field0_store v h) as Hh.
  destruct (field0 v h) as [[d|e|] h0]; simpl in Hh; subst; [|done..].
  by destruct (dict_get d c).
Qed.

Lemma dict_get_of_elem (d : dict cell (gset Z)) k s :
  NoDup (dict_keys d) → (k, s) ∈ d → dict_get d k = Some s.
Proof.
  unfold dict_keys. induction d as [|[k0 s0] d IH]; csimpl.
  - intros _ Hin. by apply elem_of_nil in Hin.
  - intros [Hk0 Hnd]%NoDup_cons Hin.
    apply elem_of_cons in Hin as [[= -> ->]|Hin]; [by rewrite decide_True|].
    rewrite decide_False; [auto|]. intros ->. apply Hk0.
    apply list_elem_of_fmap. by exists (k, s).
Qed.

Lemma keys_unique_le d' d :
  dict_le d' d → keys_unique d = true → keys_unique d' = true.
Proof. unfold keys_unique. intros Hle. by rewrite (dict_le_keys _ _ Hle). Qed.

(** On a grid that is not solved and has no empty candidate set, some
    cell has more than one candidate. *)
Lemma unsolved_has_choice g h d :
  h !! cells g = Some d →
  keys_unique d = true →
  nonempty_cells d = true →
  (solved (VGrid g) h).1 = Ret false →
  ∃ k, (1 < size (dict_at d k))%nat.
Proof.
  intros Hd Hnd%bool_decide_eq_true Hne.
  unfold solved, bind, as_obj, deref, ret. simpl.
  rewrite Hd. simpl. intros [= Hall].
  assert (∃ k s, (k, s) ∈ d ∧ size s ≠ 1%nat) as (k & s & Hin & Hs).
  { clear -Hall. unfold dict_values in Hall.
    induction d as [|[k s] d IH]; csimpl in *; [done|].
    apply andb_false_iff in Hall as [Hs|Hall].
    - exists k, s. split; [apply list_elem_of_here|].
      by apply bool_decide_eq_false in Hs.
    - destruct (IH Hall) as (k' & s' & Hin & Hs').
      exists k', s'. split; [by apply list_elem_of_further | done]. }
  pose proof (dict_get_of_elem d k s Hnd Hin) as Hk.
  pose proof (nonempty_cells_get d k s Hne Hk) as Hem.
  exists k. unfold dict_at. rewrite Hk.
  change (1 < size s)%nat.
  assert (size s ≠ 0%nat); [|lia].
  apply size_non_empty_iff. by intros ?%leibniz_equiv.
Qed.

Lemma well_formed_spec g d :
  well_formed g d = true ↔
  keys_unique d = true ∧ nonempty_cells d = true ∧
  peers_closed (peers g) d = true.
Proof. unfold well_formed. rewrite !andb_true_iff. tauto. Qed.

Lemma step_wf h g h' g' d :
  step (h, g) (h', g') →
  h !! cells g = Some d →
  well_formed g d = true →
  ∃ d', h' !! cells g' = Some d' ∧ dict_le d' d ∧ well_formed g' d' = true.
Proof.
  intros Hstep Hd (Hk & Hne & Hcl)%well_formed_spec.
  destruct (step_post _ _ _ _ _ Hstep Hd) as (d' & Hd' & Hle & Hne').
  destruct (step_same_topology _ _ _ _ _ Hstep Hd) as [Hp _].
  exists d'. split_and!; [done..|]. apply well_formed_spec. rewrite Hp.
  split_and!; [by eapply keys_unique_le | auto | by eapply peers_closed_le].
Qed.

Lemma solved_ret g h d :
  h !! cells g = Some d → ∃ b, solved (VGrid g) h = (Ret b, h).
Proof.
  intros Hd. unfold solved, bind, as_obj, deref, ret. simpl. rewrite Hd.
  by eexists.
Qed.

Lemma pair_of_parts {A} (out : res A * heap) r h :
  out.1 = r → out.2 = h → out = (r, h).
Proof. destruct out. simpl. by intros -> ->. Qed.

(** With strategies that only read the store, that pick a cell with more
    than one candidate and that try candidates of that cell, the search on
    a well-formed grid returns a grid or [False]: the depth of the
    recursion is at most the number of candidates left. *)
Lemma solve_sudoku_returns next_cell order_choices :
  (∀ v h, (next_cell v h).2 = h) →
  (∀ v c h, (order_choices v c h).2 = h) →
  (∀ g h d,
     h !! cells g = Some d → well_formed g d = true →
     (solved (VGrid g) h).1 = Ret false →
     ∃ c s, (next_cell (VGrid g) h).1 = Ret c ∧
            dict_get d c = Some s ∧ (1 < size s)%nat) →
  (∀ g h d c s,
     h !! cells g = Some d → dict_get d c = Some s →
     ∃ vs, (order_choices (VGrid g) c h).1 = Ret vs ∧ ∀ v, v ∈ vs → v ∈ s) →
  ∀ f g h d,
    h !! cells g = Some d → well_formed g d = true → (total d < f)%nat →
    ∃ v h', solve_sudoku next_cell order_choices (S f) (VGrid g) h
              = (Ret v, h').
Proof.
  intros Hncs Hocs Hnc Hoc.
  assert (∀ v h, h `prefix_of` (next_cell v h).2) as Hncp
    by (intros v h; by rewrite Hncs).
  assert (∀ v c h, h `prefix_of` (order_choices v c h).2) as Hocp
    by (intros v c h; by rewrite Hocs).
  induction f as [|f IH]; intros g h d Hd Hwf Hf; [lia|].
  rewrite solve_sudoku_unfold.
  destruct (solved_ret g h d Hd) as [b Hs]. rewrite (bind_Ret _ _ _ _ _ Hs).
  destruct b; [by eexists _, _|].
  destruct (Hnc g h d Hd Hwf) as (c & s & Hc & Hcs & Hsz); [by rewrite Hs|].
  rewrite (bind_Ret _ _ _ c h) by (by apply pair_of_parts).
  destruct (Hoc g h d c s Hd Hcs) as (vs & Hvs & Hin).
  rewrite (bind_Ret _ _ _ vs h) by (by apply pair_of_parts).
  clear Hs Hc Hvs. revert h Hd Hin.
  induction vs as [|x vs IHvs]; intros h Hd Hin; [by eexists _, _|].
  rewrite try_choices_cons.
  apply well_formed_spec in Hwf as (Hk & Hne & Hcl).
  pose proof (assign_post (S f) g c x h d s Hd Hcs) as Hpost.
  pose proof (assign_extends (S f) (VGrid g) c x h) as Hpre.
  unfold bind at 1.
  destruct (assign (S f) (VGrid g) c x h) as [r h3] eqn:Ea. simpl in Hpre.
  assert (h3 !! cells g = Some d) as Hd3
    by (destruct Hpre as [k ->]; by apply lookup_app_l_Some).
  assert (r = Ret (VGrid (copy_of g h)) ∨ r = Ret VFalse) as [-> | ->].
  { destruct Hpost as (_ & _ & _ & _ & _ & Hsafe). apply Hsafe.
    split; [by apply peers_closed_spec | lia]. }
  2:{ simpl. apply IHvs; [done|]. intros v Hv. apply Hin. by right. }
  destruct (assign_ret_exact _ _ _ _ _ _ _ _ Hd Hne Ea)
    as (_ & d1 & s0 & Hd1 & Hle1 & Hne1 & Hcs0 & Hx & Hc1).
  rewrite Hcs in Hcs0. injection Hcs0 as <-.
  assert (step (h, g) (h3, copy_of g h)) as Hstep by (by eapply step_assign).
  destruct (step_wf _ _ _ _ _ Hstep Hd) as (d1' & Hd1' & _ & Hwf1).
  { apply well_formed_spec. auto. }
  rewrite Hd1 in Hd1'. injection Hd1' as <-.
  assert (total d1 < total d)%nat as Hlt.
  { apply (dict_le_total_lt d1 d c s {[x]}); [done..|].
    rewrite size_singleton. lia. }
  destruct (IH (copy_of g h) h3 d1 Hd1 Hwf1) as (v & h4 & Hsolve); [lia|].
  rewrite Hsolve.
  pose proof (solve_sudoku_extends next_cell order_choices Hncp Hocp (S f)
                (VGrid (copy_of g h)) h3) as Hpre4.
  rewrite Hsolve in Hpre4. simpl in Hpre4.
  destruct v as [|g2]; simpl; [|by eexists _, _].
  apply IHvs.
  - destruct Hpre4 as [k ->]. by apply lookup_app_l_Some.
  - intros v Hv. apply Hin. by right.
Qed.

(** ** The strategies of the code *)

Lemma dict_at_get d k :
  (1 < size (dict_at d k))%nat →
  ∃ s, dict_get d k = Some s ∧ (1 < size s)%nat.
Proof.
  unfold dict_at. destruct (dict_get d k) as [s|]; [by exists s|].
  intros Hk. change (1 < size (∅ : gset Z))%nat in Hk.
  rewrite size_empty in Hk. lia.
Qed.

Lemma most_constrained_picks g h d :
  h !! cells g = Some d → well_formed g d = true →
  (solved (VGrid g) h).1 = Ret false →
  ∃ c s, (most_constrained (VGrid g) h).1 = Ret c ∧
         dict_get d c = Some s ∧ (1 < size s)%nat.
Proof.
  intros Hd (Hk & Hne & _)%well_formed_spec Hs.
  destruct (unsolved_has_choice g h d Hd Hk Hne Hs) as [k Hsz].
  destruct (select_spec py_min Nat.min le d h k) as (c & Hc & _ & Hcs & _);
    try done; try lia.
  destruct (dict_at_get d c Hcs) as (s & Hs' & Hsz').
  exists c, s. split; [|done].
  unfold most_constrained, bind at 1, field0, deref. rewrite Hd.
  fold (unassigned d). by rewrite Hc.
Qed.

Lemma least_constrained_picks g h d :
  h !! cells g = Some d → well_formed g d = true →
  (solved (VGrid g) h).1 = Ret false →
  ∃ c s, (least_constrained (VGrid g) h).1 = Ret c ∧
         dict_get d c = Some s ∧ (1 < size s)%nat.
Proof.
  intros Hd (Hk & Hne & _)%well_formed_spec Hs.
  destruct (unsolved_has_choice g h d Hd Hk Hne Hs) as [k Hsz].
  destruct (select_spec py_max Nat.max (λ a b, b ≤ a)%nat d h k)
    as (c & Hc & _ & Hcs & _); try done; try lia.
  destruct (dict_at_get d c Hcs) as (s & Hs' & Hsz').
  exists c, s. split; [|done].
  unfold least_constrained, bind at 1, field0, deref. rewrite Hd.
  fold (unassigned d). by rewrite Hc.
Qed.

Lemma ascending_order_members g h d c s :
  h !! cells g = Some d → dict_get d c = Some s →
  ∃ vs, (ascending_order (VGrid g) c h).1 = Ret vs ∧ ∀ v, v ∈ vs → v ∈ s.
Proof.
  intros Hd Hc. unfold ascending_order, bind, field0, deref.
  rewrite Hd, Hc. eexists. split; [done|]. intros v Hv.
  rewrite merge_sort_Permutation in Hv. by apply elem_of_elements.
Qed.

Lemma descending_order_members g h d c s :
  h !! cells g = Some d → dict_get d c = Some s →
  ∃ vs, (descending_order (VGrid g) c h).1 = Ret vs ∧ ∀ v, v ∈ vs → v ∈ s.
Proof.
  intros Hd Hc. unfold descending_order, bind, field0, deref.
  rewrite Hd, Hc. eexists. split; [done|]. intros v Hv.
  rewrite merge_sort_Permutation in Hv. by apply elem_of_elements.
Qed.

Lemma is_selection_facts nc :
  is_selection nc →
  (∀ v h, (nc v h).2 = h) ∧
  (∀ g h d,
     h !! cells g = Some d → well_formed g d = true →
     (solved (VGrid g) h).1 = Ret false →
     ∃ c s, (nc (VGrid g) h).1 = Ret c ∧
            dict_get d c = Some s ∧ (1 < size s)%nat).
Proof.
  intros [-> | ->].
  - split; [apply most_constrained_store | apply most_constrained_picks].
  - split; [apply least_constrained_store | apply least_constrained_picks].
Qed.

Lemma is_order_facts oc :
  is_order oc →
  (∀ v c h, (oc v c h).2 = h) ∧
  (∀ g h d c s,
     h !! cells g = Some d → dict_get d c = Some s →
     ∃ vs, (oc (VGrid g) c h).1 = Ret vs ∧ ∀ v, v ∈ vs → v ∈ s).
Proof.
  intros [-> | ->].
  - split; [apply ascending_order_store | apply ascending_order_members].
  - split; [apply descending_order_store | apply descending_order_members].
Qed.

Lemma ex_search :
  solve_sudoku most_constrained ascending_order 11 (VGrid ex_grid) ex_heap
    = (Ret (VGrid ex_search_grid), ex_search_heap).
Proof. vm_compute. reflexivity. Qed.

(** ** Statements *)

(** X1. A call of [eliminate] that returns a grid returns the object it
    was given, and the candidates of the cell are then exactly the former
    ones without the digit: the propagation to the peers never comes back
    to shrink the cell further. *)
Theorem eliminate_removes_one_digit f g c x h d s g' h' :
  h !! cells g = Some d →
  nonempty_cells d = true →
  dict_get d c = Some s →
  eliminate f (VGrid g) c x h = (Ret (VGrid g'), h') →
  g' = g ∧ ∃ d', h' !! cells g = Some d' ∧ dict_get d' c = Some (s ∖ {[x]}).
Proof.
  intros Hd Hne Hc E.
  pose proof (eliminate_ret_grid _ _ _ _ _ _ _ _ Hd E) as [-> _].
  split; [done|]. by eapply eliminate_ret_exact.
Qed.

Lemma eliminate_removes_one_digit_witness :
  ex_grid = ex_grid ∧
  ∃ d', [ex_cells_less] !! cells ex_grid = Some d' ∧
        dict_get d' (1, 1) = Some ({[1; 2; 3]} ∖ {[3]}).
Proof.
  apply (eliminate_removes_one_digit 10 ex_grid (1, 1) 3 ex_heap ex_cells
           {[1; 2; 3]} ex_grid [ex_cells_less]).
  - reflexivity.
  - vm_compute. reflexivity.
  - reflexivity.
  - vm_compute. reflexivity.
Defined.

(** X2. A call of [assign] that returns a grid returns a new object in
    which the cell holds the digit and nothing else; the digit was a
    candidate of the cell. *)
Theorem assign_fixes_digit f g c x h d g' h' :
  h !! cells g = Some d →
  nonempty_cells d = true →
  assign f (VGrid g) c x h = (Ret (VGrid g'), h') →
  cells g' = length h ∧
  ∃ d' s, h' !! cells g' = Some d' ∧ dict_get d' c = Some {[x]} ∧
          dict_get d c = Some s ∧ x ∈ s.
Proof.
  intros Hd Hne E.
  destruct (assign_ret_exact _ _ _ _ _ _ _ _ Hd Hne E)
    as (-> & d' & s & Hd' & _ & _ & Hc & Hx & Hc').
  split; [done|]. by exists d', s.
Qed.

Lemma assign_fixes_digit_witness :
  cells (copy_of ex_grid ex_heap) = length ex_heap ∧
  ∃ d' s, ex_heap' !! cells (copy_of ex_grid ex_heap) = Some d' ∧
          dict_get d' (1, 1) = Some {[1]} ∧
          dict_get ex_cells (1, 1) = Some s ∧ 1 ∈ s.
Proof.
  apply (assign_fixes_digit 10 ex_grid (1, 1) 1 ex_heap ex_cells
           (copy_of ex_grid ex_heap) ex_heap').
  - reflexivity.
  - vm_compute. reflexivity.
  - vm_compute. reflexivity.
Defined.

(** X3. On a grid whose peers are defined and inside the grid, for a cell
    of the grid and with a budget above the number of candidates left,
    [eliminate] and [assign] raise nothing: each returns a grid or
    [False]. *)
Theorem propagation_returns f g c x h d :
  h !! cells g = Some d →
  peers_closed (peers g) d = true →
  is_Some (dict_get d c) →
  (total d < f)%nat →
  ((eliminate f (VGrid g) c x h).1 = Ret (VGrid g) ∨
   (eliminate f (VGrid g) c x h).1 = Ret VFalse) ∧
  ((assign f (VGrid g) c x h).1 = Ret (VGrid (copy_of g h)) ∨
   (assign f (VGrid g) c x h).1 = Ret VFalse).
Proof.
  intros Hd Hcl%peers_closed_spec [s Hc] Hf. split.
  - destruct (eliminate_post f g c x h d Hd) as (_ & _ & _ & _ & _ & Hsafe).
    apply Hsafe. split_and!; [done | by eexists | done].
  - destruct (assign_post f g c x h d s Hd Hc) as (_ & _ & _ & _ & _ & Hsafe).
    by apply Hsafe.
Qed.

Lemma propagation_returns_witness :
  ((eliminate 10 (VGrid ex_grid) (1, 2) 2 ex_heap).1 = Ret (VGrid ex_grid) ∨
   (eliminate 10 (VGrid ex_grid) (1, 2) 2 ex_heap).1 = Ret VFalse) ∧
  ((assign 10 (VGrid ex_grid) (1, 2) 2 ex_heap).1
     = Ret (VGrid (copy_of ex_grid ex_heap)) ∨
   (assign 10 (VGrid ex_grid) (1, 2) 2 ex_heap).1 = Ret VFalse).
Proof.
  apply (propagation_returns 10 ex_grid (1, 2) 2 ex_heap ex_cells).
  - reflexivity.
  - vm_compute. reflexivity.
  - vm_compute. eexists. reflexivity.
  - vm_compute. lia.
Defined.

Lemma lineage_excluded a b :
  rtc step a b →
  ∀ d, a.1 !! cells a.2 = Some d →
       forced_excluded (peers a.2) d = true →
       ∃ d', b.1 !! cells b.2 = Some d' ∧
             forced_excluded (peers b.2) d' = true.
Proof.
  induction 1 as [[h g]|[h g] [h1 g1] b Hstep _ IH]; intros d Hd Hex.
  - by exists d.
  - destruct (step_excluded _ _ _ _ _ Hstep Hd Hex) as (d1 & Hd1 & Hex1).
    by apply (IH d1).
Qed.

(** X4. The propagation keeps peers apart.  If, in a grid, the digit of
    every decided cell is a candidate of none of its peers, the same holds
    of the grid that a call of [eliminate] or [assign] returns; it holds
    of the empty grid, hence of every grid reached from it by successful
    calls. *)
Theorem decided_digits_excluded_from_peers :
  (∀ h g d h' g',
     h !! cells g = Some d →
     forced_excluded (peers g) d = true →
     step (h, g) (h', g') →
     ∃ d', h' !! cells g' = Some d' ∧
           forced_excluded (peers g') d' = true) ∧
  (∀ bs h0 g0 h1 h g,
     empty_grid bs h0 = (Ret (VGrid g0), h1) →
     rtc step (h1, g0) (h, g) →
     ∃ d, h !! cells g = Some d ∧ forced_excluded (peers g) d = true).
Proof.
  split.
  - intros h g d h' g' Hd Hex Hstep. by eapply step_excluded.
  - intros bs h0 g0 h1 h g Hempty Hrtc.
    destruct (empty_grid_excluded _ _ _ _ Hempty) as (d0 & Hd0 & Hex0).
    by apply (lineage_excluded _ _ Hrtc d0).
Qed.

Lemma decided_digits_excluded_from_peers_witness :
  (∃ d', ex_heap' !! cells (copy_of ex_grid ex_heap) = Some d' ∧
         forced_excluded (peers (copy_of ex_grid ex_heap)) d' = true) ∧
  (∃ d, (empty_grid 1 []).2 !! 0%nat = Some d ∧
        forced_excluded [((1, 1), ∅)] d = true).
Proof.
  split.
  - refine (proj1 decided_digits_excluded_from_peers ex_heap ex_grid
              ex_cells ex_heap' (copy_of ex_grid ex_heap) _ _ _).
    + reflexivity.
    + vm_compute. reflexivity.
    + apply (step_assign 10 (1, 1) 1). vm_compute. reflexivity.
  - refine (proj2 decided_digits_excluded_from_peers 1 []
              (mkSudoku 0 [((1, 1), ∅)] 1) (empty_grid 1 []).2
              (empty_grid 1 []).2 (mkSudoku 0 [((1, 1), ∅)] 1) _ _).
    + vm_compute. reflexivity.
    + apply rtc_refl.
Defined.

(** X5. Whatever the strategies, a grid that [solve_sudoku] returns is
    solved: every cell holds exactly one digit. *)
Theorem search_returns_solved_grids (next_cell : value → M cell)
    (order_choices : value → cell → M (list Z)) f v h g' h' :
  solve_sudoku next_cell order_choices f v h = (Ret (VGrid g'), h') →
  solved (VGrid g') h' = (Ret true, h') ∧
  ∃ d', h' !! cells g' = Some d' ∧
        ∀ k s, dict_get d' k = Some s → ∃ x, s = {[x]}.
Proof.
  intros Hs%solve_sudoku_ret_solved. split; [done|].
  unfold solved, bind, as_obj, deref, ret in Hs. simpl in Hs.
  destruct (h' !! cells g') as [d'|]; [|done]. exists d'. split; [done|].
  injection Hs as Hall. rewrite forallb_forall in Hall.
  intros k s Hk.
  apply dict_get_Some_values, list_elem_of_In, Hall, bool_decide_eq_true
    in Hk.
  destruct (singleton_of_size_1 s Hk) as (x & -> & _). by exists x.
Qed.

Lemma search_returns_solved_grids_witness :
  solved (VGrid ex_search_grid) ex_search_heap = (Ret true, ex_search_heap) ∧
  ∃ d', ex_search_heap !! cells ex_search_grid = Some d' ∧
        ∀ k s, dict_get d' k = Some s → ∃ x, s = {[x]}.
Proof.
  apply (search_returns_solved_grids most_constrained ascending_order 11
           (VGrid ex_grid) ex_heap ex_search_grid ex_search_heap).
  vm_compute. reflexivity.
Defined.

(** X6. With strategies that leave the existing dictionaries alone, the
    grid that [solve_sudoku] returns has the cells and the peers of the
    grid it was given, and the digit of each cell is one of the candidates
    the cell had: the digits already decided are kept. *)
Theorem search_refines_input (next_cell : value → M cell)
    (order_choices : value → cell → M (list Z)) f g h d g' h' :
  (∀ v h, h `prefix_of` (next_cell v h).2) →
  (∀ v c h, h `prefix_of` (order_choices v c h).2) →
  h !! cells g = Some d →
  solve_sudoku next_cell order_choices f (VGrid g) h
    = (Ret (VGrid g'), h') →
  peers g' = peers g ∧
  ∃ d', h' !! cells g' = Some d' ∧
        ∀ k, match dict_get d' k, dict_get d k with
             | Some s', Some s => ∃ x, s' = {[x]} ∧ x ∈ s
             | None, None => True
             | _, _ => False
             end.
Proof.
  intros Hnc Hoc Hd E.
  destruct (solve_sudoku_post _ _ Hnc Hoc _ _ _ _ _ _ Hd E)
    as (d' & Hd' & Hp & _ & Hle & _).
  split; [done|]. exists d'. split; [done|]. intros k.
  pose proof (dict_le_get d' d k Hle) as Hk.
  destruct (dict_get d' k) as [s'|] eqn:Hs'; [|done].
  destruct (dict_get d k) as [s|]; [|done].
  apply solve_sudoku_ret_solved in E.
  unfold solved, bind, as_obj, deref, ret in E. simpl in E.
  rewrite Hd' in E. injection E as Hall. rewrite forallb_forall in Hall.
  apply dict_get_Some_values, list_elem_of_In, Hall, bool_decide_eq_true
    in Hs'.
  destruct (singleton_of_size_1 s' Hs') as (x & -> & _).
  exists x. split; [done|]. by apply Hk, elem_of_singleton.
Qed.

Lemma search_refines_input_witness :
  peers ex_search_grid = peers ex_grid ∧
  ∃ d', ex_search_heap !! cells ex_search_grid = Some d' ∧
        ∀ k, match dict_get d' k, dict_get ex_cells k with
             | Some s', Some s => ∃ x, s' = {[x]} ∧ x ∈ s
             | None, None => True
             | _, _ => False
             end.
Proof.
  apply (search_refines_input most_constrained ascending_order 11 ex_grid
           ex_heap ex_cells ex_search_grid ex_search_heap).
  - intros v h. by rewrite most_constrained_store.
  - intros v c h. by rewrite ascending_order_store.
  - reflexivity.
  - vm_compute. reflexivity.
Defined.

(** X7. With strategies that leave the existing dictionaries alone, and
    from a grid in which the digit of every decided cell is a candidate of
    none of its peers (as in any grid built by [assign] from the empty
    grid), the grid that [solve_sudoku] returns gives different digits to
    any two cells that are peers. *)
Theorem search_result_separates_peers (next_cell : value → M cell)
    (order_choices : value → cell → M (list Z)) f g h d g' h' :
  (∀ v h, h `prefix_of` (next_cell v h).2) →
  (∀ v c h, h `prefix_of` (order_choices v c h).2) →
  h !! cells g = Some d →
  forced_excluded (peers g) d = true →
  solve_sudoku next_cell order_choices f (VGrid g) h
    = (Ret (VGrid g'), h') →
  ∃ d', h' !! cells g' = Some d' ∧
        ∀ k pk p x y,
          dict_get (peers g') k = Some pk → p ∈ pk →
          dict_get d' k = Some {[x]} → dict_get d' p = Some {[y]} →
          x ≠ y.
Proof.
  intros Hnc Hoc Hd Hex E.
  destruct (solve_sudoku_post _ _ Hnc Hoc _ _ _ _ _ _ Hd E)
    as (d' & Hd' & Hp & _ & _ & _ & Hex').
  exists d'. split; [done|]. intros k pk p x y Hpk Hin Hk Hpc ->.
  rewrite Hp in Hpk. apply Hex' in Hex.
  pose proof (proj1 (forced_excluded_spec _ _) Hex) as Hall.
  clear Hex. rename Hall into Hex.
  apply (Hex k {[y]} pk p {[y]} Hk (size_singleton y) Hpk Hin Hpc y);
    by apply elem_of_singleton.
Qed.

Lemma search_result_separates_peers_witness :
  ∃ d', ex_search_heap !! cells ex_search_grid = Some d' ∧
        ∀ k pk p x y,
          dict_get (peers ex_search_grid) k = Some pk → p ∈ pk →
          dict_get d' k = Some {[x]} → dict_get d' p = Some {[y]} →
          x ≠ y.
Proof.
  apply (search_result_separates_peers most_constrained ascending_order 11
           ex_grid ex_heap ex_cells ex_search_grid ex_search_heap).
  - intros v h. by rewrite most_constrained_store.
  - intros v c h. by rewrite ascending_order_store.
  - reflexivity.
  - vm_compute. reflexivity.
  - vm_compute. reflexivity.
Defined.

(** X8. With [most_constrained] or [least_constrained] for the selection
    and [ascending_order] or [descending_order] for the values, on a
    well-formed grid and with a budget above the number of candidates
    left, [solve_sudoku] raises nothing: it returns [False] or a grid. *)
Theorem search_returns (next_cell : value → M cell)
    (order_choices : value → cell → M (list Z)) f g h d :
  is_selection next_cell →
  is_order order_choices →
  h !! cells g = Some d →
  well_formed g d = true →
  (total d < f)%nat →
  ∃ v h', solve_sudoku next_cell order_choices (S f) (VGrid g) h
            = (Ret v, h').
Proof.
  intros [Hncs Hnc]%is_selection_facts [Hocs Hoc]%is_order_facts.
  by apply solve_sudoku_returns.
Qed.

Lemma search_returns_witness :
  ∃ v h', solve_sudoku least_constrained descending_order 7 (VGrid ex_grid)
            ex_heap = (Ret v, h').
Proof.
  apply (search_returns least_constrained descending_order 6 ex_grid ex_heap
           ex_cells).
  - right. reflexivity.
  - right. reflexivity.
  - reflexivity.
  - vm_compute. reflexivity.
  - vm_compute. lia.
Defined.

(** X9. With strategies that leave the existing dictionaries alone,
    [solve_sudoku] writes to none of the dictionaries that existed before
    the call, whatever it returns: the grid of the caller is as it was. *)
Theorem search_leaves_caller_grid (next_cell : value → M cell)
    (order_choices : value → cell → M (list Z)) f g h d :
  (∀ v h, h `prefix_of` (next_cell v h).2) →
  (∀ v c h, h `prefix_of` (order_choices v c h).2) →
  h !! cells g = Some d →
  let h' := (solve_sudoku next_cell order_choices f (VGrid g) h).2 in
  h `prefix_of` h' ∧ h' !! cells g = Some d.
Proof.
  intros Hnc Hoc Hd. simpl.
  pose proof (solve_sudoku_extends _ _ Hnc Hoc f (VGrid g) h) as Hpre.
  split; [done|]. destruct Hpre as [k ->]. by apply lookup_app_l_Some.
Qed.

Lemma search_leaves_caller_grid_witness :
  let h' := (solve_sudoku most_constrained ascending_order 11
               (VGrid ex_grid) ex_heap).2 in
  ex_heap `prefix_of` h' ∧ h' !! cells ex_grid = Some ex_cells.
Proof.
  apply (search_leaves_caller_grid most_constrained ascending_order 11
           ex_grid ex_heap ex_cells).
  - intros v h. by rewrite most_constrained_store.
  - intros v c h. by rewrite ascending_order_store.
  - reflexivity.
Defined.

(** ** The two orders *)

Lemma StronglySorted_le_lt (l : list Z) :
  StronglySorted Z.le l → NoDup l → StronglySorted Z.lt l.
Proof.
  induction 1 as [|x l Hl IH Hx]; intros Hnd; [constructor|].
  apply NoDup_cons in Hnd as [Hxl Hnd]. constructor; [auto|].
  rewrite Forall_forall in Hx. apply Forall_forall. intros y Hy.
  specialize (Hx y Hy). assert (x ≠ y) by (by intros ->). lia.
Qed.

Lemma sorted_descending (l : list Z) :
  NoDup l → merge_sort (flip Z.le) l = reverse (merge_sort Z.le l).
Proof.
  intros Hnd.
  assert (Transitive (flip Z.le)) by (intros a b c; unfold flip; lia).
  assert (AntiSymm (=) (flip Z.le)) by (intros a b; unfold flip; lia).
  assert (Total (flip Z.le)) by (intros a b; unfold flip; lia).
  apply (Sorted_unique (flip Z.le)).
  - apply Sorted_merge_sort; done.
  - apply Sorted_reverse, Sorted_merge_sort. intros a b. lia.
  - rewrite reverse_Permutation, !merge_sort_Permutation. done.
Qed.

(** X10. [ascending_order] returns the candidates of the cell, each once,
    in increasing order, and leaves the store alone; it raises [KeyError]
    for a cell that is not in the grid. *)
Theorem ascending_order_sorted g c h d :
  h !! cells g = Some d →
  match dict_get d c with
  | Some s =>
      ∃ vs, ascending_order (VGrid g) c h = (Ret vs, h) ∧
            (∀ v, v ∈ vs ↔ v ∈ s) ∧ StronglySorted Z.lt vs
  | None => ascending_order (VGrid g) c h = (Raise KeyError, h)
  end.
Proof.
  intros Hd. unfold ascending_order, bind, field0, deref. rewrite Hd.
  destruct (dict_get d c) as [s|]; [|done].
  eexists. split; [done|]. split.
  - intros v. rewrite merge_sort_Permutation. apply elem_of_elements.
  - apply StronglySorted_le_lt.
    + apply StronglySorted_merge_sort; [intros a b1 b2; lia | intros a b; lia].
    + rewrite merge_sort_Permutation. apply NoDup_elements.
Qed.

Lemma ascending_order_sorted_witness :
  (∃ vs, ascending_order (VGrid ex_grid) (1, 1) ex_heap = (Ret vs, ex_heap) ∧
         (∀ v, v ∈ vs ↔ v ∈ ({[1; 2; 3]} : gset Z)) ∧
         StronglySorted Z.lt vs) ∧
  ascending_order (VGrid ex_grid) (1, 10) ex_heap
    = (Raise KeyError, ex_heap).
Proof.
  split.
  - apply (ascending_order_sorted ex_grid (1, 1) ex_heap ex_cells).
    reflexivity.
  - apply (ascending_order_sorted ex_grid (1, 10) ex_heap ex_cells).
    reflexivity.
Defined.

(** X11. [descending_order] returns the list of [ascending_order]
    reversed, and fails as [ascending_order] does. *)
Theorem descending_order_reverses (v : value) (c : cell) (h : heap) :
  descending_order v c h =
    (let! l := ascending_order v c in ret (reverse l)) h.
Proof.
  unfold descending_order, ascending_order, bind.
  destruct (field0 v h) as [[d|e|] h0]; [|done..].
  destruct (dict_get d c) as [s|]; [|done].
  unfold ret. f_equal. f_equal. apply sorted_descending, NoDup_elements.
Qed.

(** ** Which cell the selection returns among equals *)

Lemma index_of_first l x i :
  index_of l x = Some i → l !! i = Some x ∧ ∀ j, l !! j = Some x → (i ≤ j)%nat.
Proof.
  revert i. induction l as [|y l IH]; intros i; simpl; [done|].
  destruct (decide (y = x)) as [->|Hne].
  - intros [= <-]. split; [done | intros j _; lia].
  - destruct (index_of l x) as [i'|]; [|done]. intros [= <-].
    destruct (IH i' eq_refl) as [Hi Hmin]. split; [done|].
    intros [|j] Hj; simpl in Hj; [congruence|]. specialize (Hmin j Hj). lia.
Qed.

(** The cell that the selection returns comes first, in the order of the
    dictionary, among the cells with more than one candidate and as many
    candidates as it has. *)
Lemma select_first (pick : list nat → M nat) d h c h' pre post :
  (let! m := pick (map (λ k, size (dict_at d k)) (unassigned d)) in
   let! i := py_index (map (λ k, size (dict_at d k)) (unassigned d)) m in
   py_nth (unassigned d) i) h = (Ret c, h') →
  dict_keys d = pre ++ c :: post →
  c ∉ pre →
  ∀ k, k ∈ pre → (1 < size (dict_at d k))%nat →
       size (dict_at d k) ≠ size (dict_at d c).
Proof.
  intros E Hkeys Hc k Hk Hsz Heq.
  apply bind_inv in E as (m & h1 & _ & E).
  apply bind_inv in E as (i & h2 & Hi & E).
  unfold py_index in Hi.
  destruct (index_of _ m) as [i'|] eqn:Hidx; [|done]. injection Hi as -> ->.
  apply index_of_first in Hidx as [Hm Hmin].
  unfold py_nth in E.
  destruct (unassigned d !! i) as [c'|] eqn:Hci; [|done]. injection E as -> ->.
  rewrite list_lookup_fmap, Hci in Hm. injection Hm as Hm.
  unfold unassigned in *. rewrite Hkeys, filter_app in *.
  set (P := λ key : cell, (1 < size (dict_at d key))%nat) in *.
  assert (k ∈ filter P pre) as Hin by (by apply list_elem_of_filter).
  apply list_elem_of_lookup in Hin as [j Hj].
  pose proof (lookup_lt_Some _ _ _ Hj) as Hlt.
  assert (i ≤ j)%nat as Hij.
  { apply Hmin. rewrite list_lookup_fmap, lookup_app_l, Hj by done.
    simpl. congruence. }
  rewrite lookup_app_l in Hci by lia.
  apply Hc. apply list_elem_of_lookup_2 in Hci.
  by apply list_elem_of_filter in Hci as [_ ?].
Qed.

(** X12. Ties go to the first cell.  When [most_constrained] returns a
    cell, every cell that comes before it in the dictionary and has more
    than one candidate has strictly more candidates than it; for
    [least_constrained], strictly fewer. *)
Theorem selection_takes_first g h d c h' pre post :
  h !! cells g = Some d →
  dict_keys d = pre ++ c :: post →
  c ∉ pre →
  (most_constrained (VGrid g) h = (Ret c, h') →
   ∀ k, k ∈ pre → (1 < size (dict_at d k))%nat →
        (size (dict_at d c) < size (dict_at d k))%nat) ∧
  (least_constrained (VGrid g) h = (Ret c, h') →
   ∀ k, k ∈ pre → (1 < size (dict_at d k))%nat →
        (size (dict_at d k) < size (dict_at d c))%nat).
Proof.
  intros Hd Hkeys Hc. split.
  - intros E k Hk Hsz.
    destruct (select_spec py_min Nat.min le d h k) as (c' & Hc' & _ & _ & Hle);
      try done; try lia.
    unfold most_constrained, bind at 1, field0, deref in E. rewrite Hd in E.
    fold (unassigned d) in E.
    pose proof (select_first py_min d h c h' pre post E Hkeys Hc k Hk Hsz).
    rewrite Hc' in E. injection E as -> ->. specialize (Hle k Hsz). lia.
  - intros E k Hk Hsz.
    destruct (select_spec py_max Nat.max (λ a b, b ≤ a)%nat d h k)
      as (c' & Hc' & _ & _ & Hle); try done; try lia.
    unfold least_constrained, bind at 1, field0, deref in E. rewrite Hd in E.
    fold (unassigned d) in E.
    pose proof (select_first py_max d h c h' pre post E Hkeys Hc k Hk Hsz).
    rewrite Hc' in E. injection E as -> ->. specialize (Hle k Hsz). lia.
Qed.

Lemma selection_takes_first_witness :
  (most_constrained (VGrid ex_grid) ex_heap = (Ret (1, 2), ex_heap) →
   ∀ k, k ∈ [(1, 1)] → (1 < size (dict_at ex_cells k))%nat →
        (size (dict_at ex_cells (1, 2)%Z) < size (dict_at ex_cells k))%nat) ∧
  (least_constrained (VGrid ex_grid) ex_heap = (Ret (1, 2), ex_heap) →
   ∀ k, k ∈ [(1, 1)] → (1 < size (dict_at ex_cells k))%nat →
        (size (dict_at ex_cells k) < size (dict_at ex_cells (1, 2)%Z))%nat).
Proof.
  apply (selection_takes_first ex_grid ex_heap ex_cells (1, 2) ex_heap
           [(1, 1)] []).
  - reflexivity.
  - reflexivity.
  - intros Hin. apply list_elem_of_singleton in Hin. discriminate Hin.
Defined.

(** ** Building a grid: the loops of [parse_grid] *)

Lemma never_raises_bind {A B} e (m : M A) (k : A → M B) :
  never_raises e m → (∀ a, never_raises e (k a)) → never_raises e (bind m k).
Proof.
  intros Hm Hk h. unfold bind. specialize (Hm h).
  destruct (m h) as [[a|e'|] h1]; simpl in *; [apply Hk | | done].
  intros [= ->]. by apply Hm.
Qed.

Lemma never_raises_for_each {A S} e (body : S → A → M S) xs :
  (∀ s a, never_raises e (body s a)) →
  ∀ s, never_raises e (for_each xs s body).
Proof.
  intros Hb. induction xs as [|a xs IH]; intros s; simpl; [by intros h|].
  by apply never_raises_bind.
Qed.

Lemma eliminate_no_assertion f : ∀ v c x,
  never_raises AssertionError (eliminate f v c x).
Proof.
  induction f as [|f IH]; intros v c x; [by intros h|]. simpl.
  destruct (is_False v); [by intros h|].
  apply never_raises_bind.
  { intros h. unfold cells_get, bind, as_obj, deref, ret, raise.
    repeat case_match; by simplify_eq. }
  intros s. destruct (decide (x ∉ s)); [by intros h|].
  apply never_raises_bind.
  { intros h. unfold cells_set, bind, as_obj, deref, ret, raise.
    repeat case_match; by simplify_eq. }
  intros _. destruct (decide (size (s ∖ {[x]}) = 0%nat)); [by intros h|].
  destruct (decide (size (s ∖ {[x]}) = 1%nat)); [|by intros h].
  apply never_raises_bind.
  { intros h. unfold peers_get, bind, as_obj, ret, raise.
    repeat case_match; by simplify_eq. }
  intros ps. apply never_raises_for_each. intros grid peer.
  apply never_raises_bind; [|intros y; apply IH].
  intros h. unfold first_of, ret, raise. by case_match.
Qed.

Lemma assign_no_assertion f v c x :
  never_raises AssertionError (assign f v c x).
Proof.
  unfold assign. apply never_raises_bind.
  { intros h. unfold copy, bind, as_obj, deref, ret, raise.
    repeat case_match; by simplify_eq. }
  intros grid. apply never_raises_bind.
  { intros h. unfold cells_get, bind, as_obj, deref, ret, raise.
    repeat case_match; by simplify_eq. }
  intros s. destruct (is_False grid); [by intros h|].
  apply never_raises_for_each. intros grid' y. apply eliminate_no_assertion.
Qed.

(** X13. [parse_grid] raises [AssertionError] exactly when the number of
    rows is not a perfect square, and then leaves the store alone; the
    lengths of the rows themselves are not examined by the assertion. *)
Theorem parse_grid_side_check f (grid_rows : list (list (option Z))) h :
  ((parse_grid f grid_rows h).1 = Raise AssertionError ↔
   ¬ ∃ k, 0 ≤ k ∧ Z.of_nat (length grid_rows) = k * k) ∧
  ((parse_grid f grid_rows h).1 = Raise AssertionError →
   (parse_grid f grid_rows h).2 = h).
Proof.
  unfold parse_grid.
  set (len := Z.of_nat (length grid_rows)).
  assert (0 ≤ len) as Hlen by lia.
  pose proof (Z.sqrt_spec len Hlen) as Hsq.
  pose proof (Z.sqrt_nonneg len) as Hnn.
  destruct (decide (Z.sqrt len ^ 2 ≠ len)) as [Hne|Heq].
  - split; [|done]. split; [|done]. intros _ (k & Hk & Hkk).
    apply Hne. rewrite Hkk, Z.sqrt_square by done. lia.
  - apply dec_stable in Heq.
    match goal with
    | |- context [bind ?m ?k h] =>
        assert (never_raises AssertionError (bind m k)) as Hnr
    end.
    { apply never_raises_bind.
      { intros h0. unfold empty_grid. by case_match. }
      intros g0. apply never_raises_bind.
      - apply never_raises_for_each. intros s [row cols].
        apply never_raises_for_each. intros s' [col [val|]];
          [apply assign_no_assertion | by intros h0].
      - intros v h0. by destruct (is_False v). }
    specialize (Hnr h).
    split; [|done]. split; [done|]. intros Hno. exfalso. apply Hno.
    exists (Z.sqrt len). split; [done | lia].
Qed.

Lemma for_each_app {A S} (body : S → A → M S) xs ys s h :
  for_each (xs ++ ys) s body h =
    (let! s' := for_each xs s body in for_each ys s' body) h.
Proof.
  revert s h. induction xs as [|x xs IH]; intros s h; simpl; [done|].
  unfold bind. destruct (body s x h) as [[s'|e|] h1]; [|done..].
  rewrite IH. by unfold bind.
Qed.

Lemma for_each_flat {A B S} (fl : A → list B) (body : S → B → M S) xs :
  ∀ s h, for_each (xs ≫= fl) s body h =
         for_each xs s (λ s x, for_each (fl x) s body) h.
Proof.
  induction xs as [|x xs IH]; intros s h; csimpl; [done|].
  rewrite for_each_app. unfold bind.
  destruct (for_each (fl x) s body h) as [[s'|e|] h1]; [|done..].
  apply IH.
Qed.

Lemma for_each_fmap {A B S} (fn : A → B) (body : S → B → M S) xs :
  ∀ s h, for_each (fn <$> xs) s body h =
         for_each xs s (λ s x, body s (fn x)) h.
Proof.
  induction xs as [|x xs IH]; intros s h; csimpl; [done|].
  unfold bind. destruct (body s (fn x) h) as [[s'|e|] h1]; [|done..].
  apply IH.
Qed.

Lemma parse_grid_loops f grid_rows new_grid h :
  for_each (enumerate1 grid_rows) new_grid
    (λ new_grid '(row, cols),
       for_each (enumerate1 cols) new_grid
         (λ new_grid '(col, val),
            match val with
            | Some val => assign f new_grid (row, col) val
            | None => ret new_grid
            end)) h
  = for_each (clues grid_rows) new_grid (place f) h.
Proof.
  unfold clues. rewrite for_each_flat. apply for_each_ext.
  intros s [row cols] h0. rewrite for_each_fmap. apply for_each_ext.
  by intros s' [col val] h1.
Qed.

Lemma lookup_enumerate1 {A} (l : list A) i k x :
  enumerate1 l !! i = Some (k, x) ↔ k = Z.of_nat i + 1 ∧ l !! i = Some x.
Proof.
  unfold enumerate1. etrans; [apply lookup_zip_with_Some|]. split.
  - intros (k' & x' & [= -> ->] & Hk & Hx). split; [|done].
    pose proof (lookup_lt_Some _ _ _ Hx).
    rewrite lookup_seqZ_lt in Hk by lia. injection Hk as <-. lia.
  - intros [-> Hx]. exists (Z.of_nat i + 1), x. split_and!; [done| |done].
    pose proof (lookup_lt_Some _ _ _ Hx).
    rewrite lookup_seqZ_lt by lia. f_equal. lia.
Qed.

Lemma elem_of_clues grid_rows i j row val :
  grid_rows !! i = Some row → row !! j = Some val →
  ((Z.of_nat i + 1, Z.of_nat j + 1), val) ∈ clues grid_rows.
Proof.
  intros Hi Hj. unfold clues. apply list_elem_of_bind.
  exists (Z.of_nat i + 1, row). split.
  - apply list_elem_of_fmap. exists (Z.of_nat j + 1, val). split; [done|].
    apply list_elem_of_lookup. exists j. by apply lookup_enumerate1.
  - apply list_elem_of_lookup. exists i. by apply lookup_enumerate1.
Qed.

(** Once the grid under construction is [False], the loop cannot return a
    grid. *)
Lemma place_loop_False f xs : ∀ h g' h',
  for_each xs VFalse (place f) h ≠ (Ret (VGrid g'), h').
Proof.
  induction xs as [|[c [x|]] xs IH]; intros h g' h'; simpl; [done|done|].
  unfold bind, place, ret. simpl. apply IH.
Qed.

(** A loop of [parse_grid] that returns a grid: every call of [assign]
    returned a grid, and every prefilled cell holds its digit. *)
Lemma place_loop_post f : ∀ xs h g d g' h',
  h !! cells g = Some d →
  nonempty_cells d = true →
  for_each xs (VGrid g) (place f) h = (Ret (VGrid g'), h') →
  rtc step (h, g) (h', g') ∧
  ∃ d', h' !! cells g' = Some d' ∧
        ∀ c x, (c, Some x) ∈ xs → dict_get d' c = Some {[x]}.
Proof.
  induction xs as [|[c [x|]] xs IH]; intros h g d g' h' Hd Hne; simpl.
  - intros [= <- <-]. split; [done|]. exists d. split; [done|].
    intros c x Hin. by apply elem_of_nil in Hin.
  - unfold bind, place. simpl.
    destruct (assign f (VGrid g) c x h) as [[[|g1]|e|] h1] eqn:Ea; [|  |done..].
    { intros E. by apply place_loop_False in E. }
    intros E.
    assert (step (h, g) (h1, g1)) as Hstep by (by eapply step_assign).
    destruct (assign_ret_exact _ _ _ _ _ _ _ _ Hd Hne Ea)
      as (_ & d1 & s & Hd1 & _ & Hne1 & _ & _ & Hc1).
    destruct (IH _ _ _ _ _ Hd1 Hne1 E) as (Hrtc & d' & Hd' & Hclues).
    split; [by eapply rtc_l|]. exists d'. split; [done|].
    intros c0 x0 Hin. apply elem_of_cons in Hin as [[= -> ->]|Hin]; [|auto].
    destruct (lineage_post _ _ Hrtc d1 Hd1) as (d'' & Hd'' & Hle & Hne').
    simpl in Hd''. rewrite Hd' in Hd''. injection Hd'' as <-.
    destruct (dict_le_get_Some d' d1 c {[x]} Hle Hc1) as (s' & Hs' & Hsub).
    rewrite Hs'. f_equal. apply subset_of_singleton; [done| |].
    + apply (nonempty_cells_get d' c); [auto | done].
    + apply size_singleton.
  - unfold bind, place, ret. simpl. intros E.
    destruct (IH _ _ _ _ _ Hd Hne E) as (Hrtc & d' & Hd' & Hclues).
    split; [done|]. exists d'. split; [done|].
    intros c0 x0 Hin. apply elem_of_cons in Hin as [[=]|Hin]. auto.
Qed.

Lemma NoDup_coords side : NoDup (coords side).
Proof.
  unfold coords. apply NoDup_bind; [| |apply NoDup_seqZ].
  - intros r1 r2 [r c] _ _ H1 H2.
    apply list_elem_of_bind in H1 as (c1 & H1 & _).
    apply list_elem_of_bind in H2 as (c2 & H2 & _).
    apply list_elem_of_singleton in H1, H2. congruence.
  - intros r _. apply NoDup_bind; [| |apply NoDup_seqZ].
    + intros c1 c2 [r' c] _ _ H1 H2.
      apply list_elem_of_singleton in H1, H2. congruence.
    + intros c _. apply NoDup_singleton.
Qed.

Lemma empty_grid_invariants (bs : Z) (h : heap) g h' :
  empty_grid bs h = (Ret (VGrid g), h') →
  ∃ d, h' !! cells g = Some d ∧ well_formed g d = true ∧
       forced_excluded (peers g) d = true ∧
       digits_in_range (n g) d = true.
Proof.
  intros E.
  assert (1 ≤ bs) as Hbs.
  { unfold empty_grid in E. by destruct (decide (bs < 1)); [|lia]. }
  destruct (empty_grid_well_formed bs h Hbs)
    as (g0 & d & E' & Hd & Hn & Hne & Hcl & Hrange).
  pose proof E as E2. rewrite E' in E2. injection E2 as <- <-.
  destruct (empty_grid_excluded _ _ _ _ E) as (d' & Hd' & Hex).
  rewrite Hd in Hd'. injection Hd' as <-.
  exists d. split_and!; [done | | done | by rewrite Hn].
  apply well_formed_spec. split_and!; [|done..].
  apply bool_decide_eq_true.
  unfold empty_grid in E. rewrite decide_False in E by lia.
  injection E as _ Hh. apply app_inj_1 in Hh as [_ [= <-]]; [|done].
  rewrite dict_keys_tabulate. apply NoDup_coords.
Qed.

Lemma lineage_invariants a b :
  rtc step a b →
  ∀ d, a.1 !! cells a.2 = Some d →
       well_formed a.2 d = true →
       forced_excluded (peers a.2) d = true →
       digits_in_range (n a.2) d = true →
       ∃ d', b.1 !! cells b.2 = Some d' ∧ dict_le d' d ∧
             well_formed b.2 d' = true ∧
             forced_excluded (peers b.2) d' = true ∧
             digits_in_range (n b.2) d' = true ∧
             peers b.2 = peers a.2 ∧ n b.2 = n a.2.
Proof.
  induction 1 as [[h g]|[h g] [h1 g1] b Hstep _ IH];
    intros d Hd Hwf Hex Hrange; simpl in *.
  - exists d. split_and!; [done | apply dict_le_refl | done..].
  - destruct (step_wf _ _ _ _ _ Hstep Hd Hwf) as (d1 & Hd1 & Hle1 & Hwf1).
    destruct (step_excluded _ _ _ _ _ Hstep Hd Hex) as (d1' & Hd1' & Hex1).
    rewrite Hd1 in Hd1'. injection Hd1' as <-.
    destruct (step_same_topology _ _ _ _ _ Hstep Hd) as [Hp1 Hn1].
    destruct (IH d1 Hd1 Hwf1 Hex1) as (d' & Hd' & Hle' & Hrest).
    { rewrite Hn1. by eapply digits_in_range_le. }
    exists d'. rewrite <- Hp1, <- Hn1.
    split_and!; [done | by eapply dict_le_trans | apply Hrest..].
Qed.

(** What [parse_grid] returns when it returns a grid. *)
Lemma parse_grid_post f grid_rows h g' h' :
  parse_grid f grid_rows h = (Ret (VGrid g'), h') →
  ∃ d', h' !! cells g' = Some d' ∧ well_formed g' d' = true ∧
        forced_excluded (peers g') d' = true ∧
        digits_in_range (n g') d' = true ∧
        ∀ c x, (c, Some x) ∈ clues grid_rows → dict_get d' c = Some {[x]}.
Proof.
  unfold parse_grid. destruct (decide (_ ≠ _)); [done|].
  intros (v0 & h0 & E0 & E)%bind_inv.
  apply bind_inv in E as (v1 & h1 & E1 & E).
  rewrite parse_grid_loops in E1.
  destruct v1 as [|g1]; [done|]. injection E as <- <-.
  destruct v0 as [|g0]; [by apply place_loop_False in E1|].
  destruct (empty_grid_invariants _ _ _ _ E0)
    as (d0 & Hd0 & Hwf0 & Hex0 & Hrange0).
  pose proof Hwf0 as (_ & Hne0 & _)%well_formed_spec.
  destruct (place_loop_post _ _ _ _ _ _ _ Hd0 Hne0 E1)
    as (Hrtc & d' & Hd' & Hclues).
  destruct (lineage_invariants _ _ Hrtc d0 Hd0 Hwf0 Hex0 Hrange0)
    as (d'' & Hd'' & _ & Hwf & Hex & Hrange & _).
  simpl in *. rewrite Hd' in Hd''. injection Hd'' as <-.
  by exists d'.
Qed.

(** X14. A grid that [parse_grid] returns holds, in every prefilled cell,
    the digit of the input and nothing else; it is well formed, its
    candidates are digits of [1, n²], and the digit of a decided cell is a
    candidate of none of its peers. *)
Theorem parse_grid_keeps_clues f grid_rows h g' h' :
  parse_grid f grid_rows h = (Ret (VGrid g'), h') →
  ∃ d', h' !! cells g' = Some d' ∧
        (∀ i j row val,
           grid_rows !! i = Some row → row !! j = Some (Some val) →
           dict_get d' (Z.of_nat i + 1, Z.of_nat j + 1) = Some {[val]}) ∧
        well_formed g' d' = true ∧
        digits_in_range (n g') d' = true ∧
        forced_excluded (peers g') d' = true.
Proof.
  intros (d' & Hd' & Hwf & Hex & Hrange & Hclues)%parse_grid_post.
  exists d'. split_and!; [done | | done..].
  intros i j row val Hi Hj. by apply Hclues, (elem_of_clues _ _ _ row).
Qed.

Lemma parse_grid_keeps_clues_witness :
  ∃ d', (parse_grid 10 ex_rows []).2
          !! cells (grid_of (parse_grid 10 ex_rows [])) = Some d' ∧
        (∀ i j row val,
           ex_rows !! i = Some row → row !! j = Some (Some val) →
           dict_get d' (Z.of_nat i + 1, Z.of_nat j + 1) = Some {[val]}) ∧
        well_formed (grid_of (parse_grid 10 ex_rows [])) d' = true ∧
        digits_in_range (n (grid_of (parse_grid 10 ex_rows []))) d' = true ∧
        forced_excluded (peers (grid_of (parse_grid 10 ex_rows []))) d'
          = true.
Proof.
  apply (parse_grid_keeps_clues 10 ex_rows []
           (grid_of (parse_grid 10 ex_rows []))
           (parse_grid 10 ex_rows []).2).
  vm_compute. reflexivity.
Defined.

(** X15. From the input to the solution.  When [parse_grid] returns a
    grid and [solve_sudoku], with strategies that leave the existing
    dictionaries alone, returns a grid for it, then in that grid every
    cell holds one digit of [1, n²], every prefilled cell holds the digit
    of the input, and two cells that are peers hold different digits. *)
Theorem parse_then_solve (next_cell : value → M cell)
    (order_choices : value → cell → M (list Z)) f1 f2 grid_rows h g h1
    g' h' :
  (∀ v h, h `prefix_of` (next_cell v h).2) →
  (∀ v c h, h `prefix_of` (order_choices v c h).2) →
  parse_grid f1 grid_rows h = (Ret (VGrid g), h1) →
  solve_sudoku next_cell order_choices f2 (VGrid g) h1
    = (Ret (VGrid g'), h') →
  ∃ d', h' !! cells g' = Some d' ∧
        (∀ k s, dict_get d' k = Some s →
                ∃ x, s = {[x]} ∧ 1 ≤ x ≤ n g' * n g') ∧
        (∀ i j row val,
           grid_rows !! i = Some row → row !! j = Some (Some val) →
           dict_get d' (Z.of_nat i + 1, Z.of_nat j + 1) = Some {[val]}) ∧
        (∀ k pk p x y,
           dict_get (peers g') k = Some pk → p ∈ pk →
           dict_get d' k = Some {[x]} → dict_get d' p = Some {[y]} →
           x ≠ y).
Proof.
  intros Hnc Hoc Hparse Hsolve.
  destruct (parse_grid_post _ _ _ _ _ Hparse)
    as (d & Hd & Hwf & Hex & Hrange & Hclues).
  destruct (solve_sudoku_post _ _ Hnc Hoc _ _ _ _ _ _ Hd Hsolve)
    as (d' & Hd' & Hp & Hn & Hle & _ & Hex').
  apply solve_sudoku_ret_solved in Hsolve.
  unfold solved, bind, as_obj, deref, ret in Hsolve. simpl in Hsolve.
  rewrite Hd' in Hsolve. injection Hsolve as Hall.
  rewrite forallb_forall in Hall.
  assert (∀ k s, dict_get d' k = Some s → ∃ x, s = {[x]}) as Hone.
  { intros k s Hk.
    apply dict_get_Some_values, list_elem_of_In, Hall, bool_decide_eq_true
      in Hk.
    destruct (singleton_of_size_1 s Hk) as (x & -> & _). by exists x. }
  exists d'. split_and!; [done| | |].
  - intros k s Hk. destruct (Hone k s Hk) as [x ->]. exists x.
    split; [done|]. rewrite Hn.
    apply (digits_in_range_get (n g) d' k {[x]});
      [by eapply digits_in_range_le | done | by apply elem_of_singleton].
  - intros i j row val Hi Hj.
    pose proof (Hclues _ _ (elem_of_clues _ _ _ _ _ Hi Hj)) as Hc.
    destruct (dict_le_get_Some d' d _ _ Hle Hc) as (s' & Hs' & Hsub).
    destruct (Hone _ _ Hs') as [x ->].
    assert (x = val) as <-; [|done].
    specialize (Hsub x). rewrite !elem_of_singleton in Hsub. auto.
  - intros k pk p x y Hpk Hin Hk Hpc ->.
    rewrite Hp in Hpk. apply Hex' in Hex.
    pose proof (proj1 (forced_excluded_spec _ _) Hex) as Hall'.
    apply (Hall' k {[y]} pk p {[y]} Hk (size_singleton y) Hpk Hin Hpc y);
      by apply elem_of_singleton.
Qed.

Lemma parse_then_solve_witness :
  ∃ d',
    (solve_sudoku most_constrained ascending_order 20
       (VGrid (grid_of (parse_grid 10 ex_rows [])))
       (parse_grid 10 ex_rows []).2).2
      !! cells (grid_of
                  (solve_sudoku most_constrained ascending_order 20
                     (VGrid (grid_of (parse_grid 10 ex_rows [])))
                     (parse_grid 10 ex_rows []).2)) = Some d' ∧
    (∀ k s, dict_get d' k = Some s → ∃ x, s = {[x]} ∧ 1 ≤ x ≤ 2 * 2) ∧
    (∀ i j row val,
       ex_rows !! i = Some row → row !! j = Some (Some val) →
       dict_get d' (Z.of_nat i + 1, Z.of_nat j + 1) = Some {[val]}) ∧
    (∀ k pk p x y,
       dict_get (peers (grid_of (parse_grid 10 ex_rows []))) k = Some pk →
       p ∈ pk →
       dict_get d' k = Some {[x]} → dict_get d' p = Some {[y]} →
       x ≠ y).
Proof.
  apply (parse_then_solve most_constrained ascending_order 10 20 ex_rows []
           (grid_of (parse_grid 10 ex_rows [])) (parse_grid 10 ex_rows []).2
           (grid_of
              (solve_sudoku most_constrained ascending_order 20
                 (VGrid (grid_of (parse_grid 10 ex_rows [])))
                 (parse_grid 10 ex_rows []).2))
           (solve_sudoku most_constrained ascending_order 20
              (VGrid (grid_of (parse_grid 10 ex_rows [])))
              (parse_grid 10 ex_rows []).2).2).
  - intros v h. by rewrite most_constrained_store.
  - intros v c h. by rewrite ascending_order_store.
  - vm_compute. reflexivity.
  - vm_compute. reflexivity.
Defined.

Lemma py_int_digit k h :
  1 ≤ k ≤ 9 → py_int (ascii_of_N (Z.to_N (k + 48))) h = (Ret k, h).
Proof.
  intros Hk. unfold py_int. rewrite N_ascii_embedding by lia.
  rewrite Z2N.id by lia. rewrite decide_True by lia.
  unfold ret. do 2 f_equal. lia.
Qed.

Lemma read_cells_render row h :
  Forall (λ v, ∀ k, v = Some k → 1 ≤ k ≤ 9) row →
  read_cells (map cell_char row) h = (Ret row, h).
Proof.
  induction 1 as [|v row Hv _ IH]; [done|].
  cbn [map read_cells]. destruct v as [k|]; cbn [cell_char].
  - specialize (Hv k eq_refl).
    rewrite decide_True.
    2:{ intros Heq. apply (f_equal N_of_ascii) in Heq.
        rewrite N_ascii_embedding in Heq by lia. simpl in Heq. lia. }
    unfold bind at 1 2. rewrite py_int_digit by done.
    unfold ret at 1. unfold bind. by rewrite IH.
  - rewrite decide_False by (by intros ?). unfold bind, ret. by rewrite IH.
Qed.

(** X16. Reading back the text of a grid.  When every known cell of the
    rows holds a digit of 1 to 9, [read_grid] on the lines that spell the
    rows, ["0"] standing for an unknown cell, does what [parse_grid] does
    on the rows; the last character of a line is dropped without being
    looked at, whatever it is. *)
Theorem read_grid_of_text f (eols : list ascii)
    (grid_rows : list (list (option Z))) h :
  length eols = length grid_rows →
  Forall (Forall (λ v, ∀ k, v = Some k → 1 ≤ k ≤ 9)) grid_rows →
  read_grid f (zip_with row_line eols grid_rows) h
    = parse_grid f grid_rows h.
Proof.
  intros Hlen Hrows. unfold read_grid.
  assert (map_lines
            (λ line, read_cells (removelast (String.list_ascii_of_string line)))
            (zip_with row_line eols grid_rows) h = (Ret grid_rows, h)) as E.
  2:{ by rewrite (bind_Ret _ _ _ _ _ E). }
  revert eols Hlen. induction Hrows as [|row rows Hrow _ IH];
    intros [|eol eols] Hlen; simpl in *; try done.
  unfold row_line at 1. rewrite String.list_ascii_of_string_of_list_ascii.
  rewrite removelast_last. unfold bind at 1.
  rewrite read_cells_render by done.
  unfold bind. rewrite IH by lia. done.
Qed.

Lemma read_grid_of_text_witness :
  read_grid 10 (zip_with row_line ["010"; "z"; "010"; " "]%char ex_rows) []
    = parse_grid 10 ex_rows [].
Proof.
  apply (read_grid_of_text 10 ["010"; "z"; "010"; " "]%char ex_rows []).
  - reflexivity.
  - repeat (apply Forall_cons_2;
              [repeat (apply Forall_cons_2;
                         [intros k Hk; simplify_eq; lia|]);
               apply Forall_nil_2|]).
    apply Forall_nil_2.
Defined.

Lemma read_cells_bad c cs h :
  c ∈ cs → ¬ (48 ≤ Z.of_N (N_of_ascii c) ≤ 57) →
  read_cells cs h = (Raise ValueError, h).
Proof.
  intros Hin Hbad. induction cs as [|c0 cs IH]; [by apply elem_of_nil in Hin|].
  cbn [read_cells]. unfold bind at 1.
  destruct (decide (c0 ≠ "0"%char)) as [Hc0|Hc0].
  - unfold bind at 1, py_int.
    destruct (decide (48 ≤ Z.of_N (N_of_ascii c0) ≤ 57)) as [Hd|Hd]; [|done].
    unfold ret at 1 2. unfold bind. rewrite IH; [done|].
    apply elem_of_cons in Hin as [->|Hin]; done.
  - apply dec_stable in Hc0. subst c0. unfold ret at 1. unfold bind.
    rewrite IH; [done|].
    apply elem_of_cons in Hin as [->|Hin]; [|done].
    exfalso. apply Hbad. simpl. lia.
Qed.

Lemma read_cells_outcome cs h :
  (∃ row, read_cells cs h = (Ret row, h)) ∨
  read_cells cs h = (Raise ValueError, h).
Proof.
  induction cs as [|c0 cs IH]; [left; by eexists|].
  cbn [read_cells]. unfold bind, py_int, ret, raise in *.
  destruct (decide (c0 ≠ "0"%char)) as [Hc0|Hc0];
    [destruct (decide (48 ≤ Z.of_N (N_of_ascii c0) ≤ 57)); [|by right]|];
    (destruct IH as [[row Hr]|Hr]; rewrite Hr; [left; by eexists | by right]).
Qed.

Lemma map_lines_bad {A B} (fn : A → M B) lines line h :
  (∀ l h, (∃ row, fn l h = (Ret row, h)) ∨ fn l h = (Raise ValueError, h)) →
  line ∈ lines →
  fn line h = (Raise ValueError, h) →
  map_lines fn lines h = (Raise ValueError, h).
Proof.
  intros Hfn Hin Hbad. induction lines as [|l lines IH];
    [by apply elem_of_nil in Hin|].
  simpl. unfold bind at 1.
  apply elem_of_cons in Hin as [->|Hin]; [by rewrite Hbad|].
  destruct (Hfn l h) as [[row ->]| ->]; [|done].
  unfold bind. by rewrite IH.
Qed.

(** X17. On text of the Latin-1 range, [read_grid] raises [ValueError],
    before any grid is built, as soon as a line holds, before its last
    character, a character other than the digits 0 to 9: a character whose
    code point [k] is below 256 and outside 48..57.  (Nothing is said of
    characters beyond that range, among which [int] accepts the decimal
    digits of other scripts.) *)
Theorem read_grid_bad_character f (lines : list string) line (k : N) h :
  line ∈ lines →
  (k < 256)%N →
  ascii_of_N k ∈ removelast (String.list_ascii_of_string line) →
  ¬ (48 ≤ Z.of_N k ≤ 57) →
  read_grid f lines h = (Raise ValueError, h).
Proof.
  intros Hline Hk Hc Hbad. unfold read_grid, bind.
  rewrite (map_lines_bad _ lines line h); [done | | done |].
  - intros l h0. apply read_cells_outcome.
  - apply (read_cells_bad (ascii_of_N k)); [done|].
    by rewrite N_ascii_embedding.
Qed.

Lemma read_grid_bad_character_witness :
  read_grid 10 ["1000;"; "00a2;"; "0000;"; "0000;"]%string []
    = (Raise ValueError, []).
Proof.
  apply (read_grid_bad_character 10 _ "00a2;"%string 97%N []).
  - apply list_elem_of_further, list_elem_of_here.
  - reflexivity.
  - simpl. do 2 apply list_elem_of_further. apply list_elem_of_here.
  - simpl. lia.
Defined.

(** ** More on single calls *)

(** X18. Whatever it returns, [eliminate] writes to one dictionary only,
    that of the grid it is given: the other dictionaries of the store are
    as they were, and that one keeps its cells, in the same order. *)
Theorem eliminate_writes_one_dictionary f g c x h d :
  h !! cells g = Some d →
  ∃ d', (eliminate f (VGrid g) c x h).2 = <[cells g := d']> h ∧
        dict_keys d' = dict_keys d.
Proof.
  intros Hd. destruct (eliminate_post f g c x h d Hd) as (d' & Hh & Hle & _).
  exists d'. split; [done | by apply dict_le_keys].
Qed.

Lemma eliminate_writes_one_dictionary_witness :
  ∃ d', (eliminate 10 (VGrid ex_grid) (1, 1) 3 ex_heap).2
          = <[cells ex_grid := d']> ex_heap ∧
        dict_keys d' = dict_keys ex_cells.
Proof.
  apply (eliminate_writes_one_dictionary 10 ex_grid (1, 1) 3 ex_heap ex_cells).
  reflexivity.
Defined.

(** X19. Assigning twice is assigning once: after [assign(grid, cell,
    digit)] has returned a grid, [assign] of the same digit to the same
    cell of that grid returns a grid with the same candidate sets, with
    any budget. *)
Theorem assign_again f f' g c x h d g1 h1 :
  h !! cells g = Some d →
  nonempty_cells d = true →
  assign f (VGrid g) c x h = (Ret (VGrid g1), h1) →
  ∃ d1 g2 h2,
    h1 !! cells g1 = Some d1 ∧
    assign f' (VGrid g1) c x h1 = (Ret (VGrid g2), h2) ∧
    h2 !! cells g2 = Some d1.
Proof.
  intros Hd Hne E.
  destruct (assign_ret_exact _ _ _ _ _ _ _ _ Hd Hne E)
    as (_ & d1 & s & Hd1 & _ & _ & _ & _ & Hc1).
  exists d1, (copy_of g1 h1), (h1 ++ [d1]). split; [done|].
  rewrite (assign_unfold _ _ _ _ _ _ Hd1), Hc1.
  rewrite difference_diag_L, elements_empty. simpl.
  split; [done | by apply list_lookup_middle].
Qed.

Lemma assign_again_witness :
  ∃ d1 g2 h2,
    ex_heap' !! cells (copy_of ex_grid ex_heap) = Some d1 ∧
    assign 0 (VGrid (copy_of ex_grid ex_heap)) (1, 1) 1 ex_heap'
      = (Ret (VGrid g2), h2) ∧
    h2 !! cells g2 = Some d1.
Proof.
  apply (assign_again 10 0 ex_grid (1, 1) 1 ex_heap ex_cells
           (copy_of ex_grid ex_heap) ex_heap').
  - reflexivity.
  - vm_compute. reflexivity.
  - vm_compute. reflexivity.
Defined.

Lemma place_loop_blank f xs : ∀ v h,
  Forall (λ a : cell * option Z, a.2 = None) xs →
  for_each xs v (place f) h = (Ret v, h).
Proof.
  induction xs as [|[c o] xs IH]; intros v h Hall; [done|].
  apply Forall_cons in Hall as [Ho Hall]. simpl in Ho. subst o.
  simpl. unfold bind, place, ret. simpl. by apply IH.
Qed.

(** X20. On an input without any prefilled cell, [parse_grid] calls
    [assign] for no cell and returns the empty grid as it is, whatever the
    lengths of the rows: only the number of rows is looked at. *)
Theorem parse_grid_blank f (grid_rows : list (list (option Z))) h :
  Forall (Forall (λ v, v = None)) grid_rows →
  Z.sqrt (Z.of_nat (length grid_rows)) ^ 2 = Z.of_nat (length grid_rows) →
  parse_grid f grid_rows h
    = empty_grid (Z.sqrt (Z.of_nat (length grid_rows))) h.
Proof.
  intros Hblank Hsq. unfold parse_grid.
  rewrite decide_False by (by intros ?).
  unfold bind at 1.
  destruct (empty_grid _ h) as [[v|e|] h0] eqn:E; [|done..].
  unfold bind. rewrite parse_grid_loops, place_loop_blank.
  - destruct v as [|g]; [|done]. unfold empty_grid in E.
    by destruct (decide _).
  - unfold clues. apply Forall_forall. intros [c o] Hin.
    apply list_elem_of_bind in Hin as ([row cols] & Hin & Hrow).
    apply list_elem_of_fmap in Hin as ([col val] & [= -> ->] & Hin).
    simpl. unfold enumerate1 in Hin, Hrow.
    apply elem_of_zip_r in Hin, Hrow.
    rewrite Forall_forall in Hblank. specialize (Hblank cols Hrow).
    rewrite Forall_forall in Hblank. by apply Hblank.
Qed.

Lemma parse_grid_blank_witness :
  parse_grid 0 [[None; None]; []; [None]; [None; None; None]] []
    = empty_grid 2 [].
Proof.
  apply (parse_grid_blank 0 [[None; None]; []; [None]; [None; None; None]] []).
  - repeat (apply Forall_cons_2;
              [repeat (apply Forall_cons_2; [reflexivity|]);
               apply Forall_nil_2|]).
    apply Forall_nil_2.
  - reflexivity.
Defined.
